(** * TexNet texture features: co-occurrence scoring and Haralick descriptors

    A shallow embedding of [texNet/image_features.py] (the methods
    [convert_image], [create_matrix], [create_haralick], [compute_chi_sum]
    of class [ImageFeatures]) and of [texNet/feature_lists.py] (the methods
    [create_image_list] and [create_matrix_list] of class [FeaturesLists]).

    Numbers.  The arrays of the source hold float64 values.  Two arithmetics
    are used.  The exact one takes the rationals extended with the three
    non-finite values of IEEE 754 ([PInf], [NInf], [NaN]); it follows the
    IEEE rules for these special values (0/0 = nan, x/0 = inf, inf - inf =
    nan, ...) and is exact on finite values: rounding, overflow and the sign
    of zero are not part of it.  It carries the results on the batch, which
    hold whatever the scores are, and the runs whose values are computed
    without rounding.  The other one is IEEE 754 binary64, rounding to
    nearest even; the two numeric methods are embedded once more over an
    arithmetic that is a parameter, which is then taken to be the exact one
    or binary64.  Integer arrays (the raw tallies of a co-occurrence matrix)
    are embedded as the values they convert to, which is what the source
    computes as long as the totals stay below 2^53 and their products below
    2^63; beyond, the integer products of the source wrap around.

    Arrays.  A 2-D array is a list of rows; a 4-D array is nested once more
    for each axis.  The array operations of the source ([sum] along an axis,
    [repeat], [reshape], [.T], [ravel], element-wise arithmetic) are embedded
    one by one and the methods are written with them, line for line. *)

From Stdlib Require Import List ZArith QArith Qcanon Lia Bool Arith PeanoNat.
From Stdlib Require Import Field.
From Stdlib Require Import Qpower Qround.
From Stdlib Require String.
From Stdlib Require Import SpecFloat.
Import ListNotations.

Local Open Scope nat_scope.

Set Implicit Arguments.

(** ** The value domain *)

Inductive float64 : Type :=
| Fin (q : Qc)
| PInf
| NInf
| NaN.

Declare Scope f64_scope.
Delimit Scope f64_scope with f64.
Bind Scope f64_scope with float64.

Definition of_Z (z : Z) : float64 := Fin (Q2Qc (inject_Z z)).

Definition fzero : float64 := of_Z 0.
Definition fone : float64 := of_Z 1.

Definition Qc_sgn (q : Qc) : comparison := (0 ?= q)%Qc.

Definition fneg (x : float64) : float64 :=
  match x with
  | Fin q => Fin (- q)%Qc
  | PInf => NInf
  | NInf => PInf
  | NaN => NaN
  end.

Definition fadd (x y : float64) : float64 :=
  match x, y with
  | NaN, _ | _, NaN => NaN
  | Fin a, Fin b => Fin (a + b)%Qc
  | PInf, NInf | NInf, PInf => NaN
  | PInf, _ | _, PInf => PInf
  | NInf, _ | _, NInf => NInf
  end.

Definition fsub (x y : float64) : float64 := fadd x (fneg y).

(** An infinity of the sign of [q] times [s]; [nan] when [q] is zero. *)
Definition inf_signed (s : bool) (q : Qc) : float64 :=
  match Qc_sgn q with
  | Eq => NaN
  | Lt => if s then PInf else NInf
  | Gt => if s then NInf else PInf
  end.

Definition fmul (x y : float64) : float64 :=
  match x, y with
  | NaN, _ | _, NaN => NaN
  | Fin a, Fin b => Fin (a * b)%Qc
  | Fin a, PInf | PInf, Fin a => inf_signed true a
  | Fin a, NInf | NInf, Fin a => inf_signed false a
  | PInf, PInf | NInf, NInf => PInf
  | PInf, NInf | NInf, PInf => NInf
  end.

Definition fdiv (x y : float64) : float64 :=
  match x, y with
  | NaN, _ | _, NaN => NaN
  | Fin a, Fin b =>
      if Qc_eq_dec b 0 then inf_signed true a else Fin (a / b)%Qc
  | Fin _, (PInf | NInf) => fzero
  | PInf, Fin b => if Qc_eq_dec b 0 then PInf else inf_signed true b
  | NInf, Fin b => if Qc_eq_dec b 0 then NInf else inf_signed false b
  | (PInf | NInf), (PInf | NInf) => NaN
  end.

Fixpoint fpow (x : float64) (n : nat) : float64 :=
  match n with
  | O => fone
  | S O => x
  | S n' => fmul x (fpow x n')
  end.

(** [x == y] and [x != y] of the source, on scalars: [nan] equals nothing. *)
Definition feqb (x y : float64) : bool :=
  match x, y with
  | Fin a, Fin b => if Qc_eq_dec a b then true else false
  | PInf, PInf | NInf, NInf => true
  | _, _ => false
  end.

Definition fneqb (x y : float64) : bool := negb (feqb x y).

(** [x <= y]: false as soon as one side is [nan]. *)
Definition fleb (x y : float64) : bool :=
  match x, y with
  | NaN, _ | _, NaN => false
  | NInf, _ | _, PInf => true
  | PInf, _ | _, NInf => false
  | Fin a, Fin b => match (a ?= b)%Qc with Gt => false | _ => true end
  end.

Definition is_nan (x : float64) : bool :=
  match x with NaN => true | _ => false end.

Definition is_finite (x : float64) : bool :=
  match x with Fin _ => true | _ => false end.

Infix "+" := fadd : f64_scope.
Infix "-" := fsub : f64_scope.
Infix "*" := fmul : f64_scope.
Infix "/" := fdiv : f64_scope.

(** Structural equality test, used to decide equations between computed
    values; unlike [feqb] it holds of [NaN] and [NaN]. *)
Definition same_value (x y : float64) : bool :=
  match x, y with
  | Fin a, Fin b => Qeq_bool a b
  | PInf, PInf | NInf, NInf | NaN, NaN => true
  | _, _ => false
  end.

(** ** Arrays *)

Definition array1 := list float64.
Definition array2 := list array1.
Definition array4 := list (list (list array1)).

Definition shape0 (A : Type) (m : list (list A)) : nat := length m.
Definition shape1 (A : Type) (m : list (list A)) : nat :=
  match m with
  | [] => 0
  | r :: _ => length r
  end.

(** [np.sum] of a 1-D array. *)
Definition vsum (v : array1) : float64 := fold_left fadd v fzero.

(** [m[i, j]] *)
Definition get (m : array2) (i j : nat) : float64 := nth j (nth i m []) NaN.

(** [m[:, j]] *)
Definition column (m : array2) (j : nat) : array1 :=
  map (fun r => nth j r NaN) m.

(** [m.sum(axis=0)]: one total per column. *)
Definition sum_axis0 (m : array2) : array1 :=
  map (fun j => vsum (column m j)) (seq 0 (shape1 m)).

(** [m.sum(axis=1)]: one total per row. *)
Definition sum_axis1 (m : array2) : array1 := map vsum m.

(** [m.ravel()] *)
Definition ravel (A : Type) (m : list (list A)) : list A := concat m.

(** [m.sum()] and [np.sum(m)]: the total over all cells. *)
Definition msum (m : array2) : float64 := vsum (ravel m).

(** [np.repeat(v, n, axis=0)]: every element [n] times in a row. *)
Definition np_repeat (A : Type) (v : list A) (n : nat) : list A :=
  flat_map (fun x => repeat x n) v.

(** [v.reshape(r, c)] of a 1-D array of [r * c] elements. *)
Fixpoint reshape (A : Type) (v : list A) (r c : nat) : list (list A) :=
  match r with
  | O => []
  | S r' => firstn c v :: reshape (skipn c v) r' c
  end.

(** [m.T] *)
Definition transpose (m : array2) : array2 :=
  map (fun j => column m j) (seq 0 (shape1 m)).

Fixpoint map2 (A B C : Type) (f : A -> B -> C) (l1 : list A) (l2 : list B)
  : list C :=
  match l1, l2 with
  | a :: l1', b :: l2' => f a b :: map2 f l1' l2'
  | _, _ => []
  end.

(** Element-wise operations on arrays of one shape. *)
Definition mmap2 (A B C : Type) (f : A -> B -> C)
  (m1 : list (list A)) (m2 : list (list B)) : list (list C) :=
  map2 (map2 f) m1 m2.

Definition mmap (A B : Type) (f : A -> B) (m : list (list A))
  : list (list B) := map (map f) m.

(** The array of shape [(r, c)] whose cell [(i, j)] is [f i j]. *)
Definition tabulate (A : Type) (r c : nat) (f : nat -> nat -> A)
  : list (list A) :=
  map (fun i => map (fun j => f i j) (seq 0 c)) (seq 0 r).

(** [np.divide(x1, x2, where=mask)] without an [out] argument.  The result
    is a freshly allocated array that numpy does not initialise; the
    quotient is stored where the mask holds and the other cells keep what
    the allocation held.  That content is the argument [out]. *)
Definition np_divide_where (x1 x2 : array2) (mask : list (list bool))
  (out : nat -> nat -> float64) : array2 :=
  mmap2 (fun (q : float64) (c : bool * (nat * nat)) =>
           if fst c then q else out (fst (snd c)) (snd (snd c)))
        (mmap2 fdiv x1 x2)
        (mmap2 pair mask (tabulate (shape0 x1) (shape1 x1) pair)).

(** ** [ImageFeatures.compute_chi_sum] *)

Definition compute_chi_sum (out : nat -> nat -> float64) (m : array2)
  : float64 :=
  let row_matrix :=
    reshape (np_repeat (sum_axis0 m) (shape0 m)) (shape0 m) (shape1 m) in
  let col_matrix :=
    transpose
      (reshape (np_repeat (sum_axis1 m) (shape0 m)) (shape0 m) (shape1 m)) in
  let matrix_rc_totals :=
    mmap (fun x => fdiv x (msum m)) (mmap2 fmul row_matrix col_matrix) in
  let expected_values :=
    mmap (fun x => fpow x 2) (mmap2 fsub m matrix_rc_totals) in
  msum (np_divide_where expected_values matrix_rc_totals
          (mmap (fun x => fneqb x fzero) matrix_rc_totals) out).

(** Matrices of integers, for concrete runs. *)
Definition of_Zs (m : list (list Z)) : array2 := mmap of_Z m.

Definition no_junk : nat -> nat -> float64 := fun _ _ => fzero.

Definition qz (a : Z) (b : positive) : float64 := Fin (Q2Qc (a # b)).

(** ** [ImageFeatures.create_haralick]

    The local variables of the method, in the order of the source.  The
    square root [np.sqrt] is a parameter: the results below hold whatever
    value it returns. *)

(** [np.dot] of two 1-D arrays. *)
Definition np_dot (a b : array1) : float64 := vsum (map2 fmul a b).

(** [np.apply_over_axes(np.sum, a, axes=(0, 1))[0, 0]]: the totals along
    axis 0, summed along axis 1. *)
Definition sum_axes01 (a : array2) : float64 := vsum (sum_axis0 a).

(** [np.arange(n)] *)
Definition arange (n : nat) : list Z := map Z.of_nat (seq 0 n).

(** [values[keys == k].sum()]: the total of the cells whose key is [k]. *)
Definition masked_sum (keys : list Z) (values : array1) (k : Z) : float64 :=
  vsum (map snd (filter (fun c => Z.eqb (fst c) k) (combine keys values))).

Section Haralick.

Variable np_sqrt : float64 -> float64.
Variable matrix : array2.

Definition level : nat := shape0 matrix.

(** The open grids [I] (a column) and [J] (a row) only occur combined,
    where broadcasting gives [level] x [level] arrays of integers. *)
Definition I_times_J : list (list Z) :=
  tabulate level level (fun i j => (Z.of_nat i * Z.of_nat j)%Z).
Definition I_minus_J : list (list Z) :=
  tabulate level level (fun i j => (Z.of_nat i - Z.of_nat j)%Z).
Definition I_plus_J : list (list Z) :=
  tabulate level level (fun i j => (Z.of_nat i + Z.of_nat j)%Z).

Definition ij : list (list Z) := I_times_J.

Definition homo_weight : array2 :=
  mmap (fun d => fdiv fone (fadd fone (of_Z (d ^ 2)))) I_minus_J.
Definition homo : float64 := sum_axes01 (mmap2 fmul matrix homo_weight).

Definition con_weight : array2 := mmap (fun d => of_Z (d ^ 2)) I_minus_J.
Definition contrast : float64 := sum_axes01 (mmap2 fmul matrix con_weight).

Definition asm : float64 := sum_axes01 (mmap (fun x => fpow x 2) matrix).
Definition energy : float64 := np_sqrt asm.

Definition k : list Z := arange (length matrix).
Definition tk : list Z := arange (2 * length matrix).
Definition p : array2 := mmap (fun x => fdiv x (msum matrix)) matrix.
Definition pravel : array1 := ravel p.
Definition px : array1 := sum_axis0 p.
Definition py : array1 := sum_axis1 p.

Definition ux : float64 := np_dot px (map of_Z k).
Definition uy : float64 := np_dot py (map of_Z k).
Definition vx : float64 :=
  fsub (np_dot px (map (fun z => of_Z (z ^ 2)) k)) (fpow ux 2).
Definition vy : float64 :=
  fsub (np_dot py (map (fun z => of_Z (z ^ 2)) k)) (fpow uy 2).
Definition sx : float64 := np_sqrt vx.
Definition sy : float64 := np_sqrt vy.

Definition corr : float64 :=
  if feqb sx fzero || feqb sy fzero then fone
  else fmul (fdiv (fdiv fone sx) sy)
            (fsub (np_dot (map of_Z (ravel ij)) pravel) (fmul ux uy)).

Definition idx1 : list Z := arange (level * 2).
Definition idx2 : list Z := arange level.

(** [tmp1] and [tmp2] pair a flattened key array with the flattened
    matrix; the two loops fill one total per key. *)
Definition px_plus_y : array1 :=
  map (masked_sum (ravel I_plus_J) (ravel matrix)) idx1.
Definition px_minus_y : array1 :=
  map (masked_sum (ravel (mmap Z.abs I_minus_J)) (ravel matrix)) idx2.

Definition mean : float64 := np_dot (map of_Z tk) px_plus_y.
Definition stdev : float64 :=
  np_sqrt (fsub (np_dot (map (fun z => of_Z (z ^ 2)) tk) px_plus_y)
                (fpow mean 2)).

Definition centred : array2 :=
  mmap (fun s => fsub (fsub (of_Z s) ux) uy) I_plus_J.
Definition shade_weight : array2 := mmap (fun x => fpow x 3) centred.
Definition prom_weight : array2 := mmap (fun x => fpow x 4) centred.

Definition cls_shade : float64 :=
  sum_axes01 (mmap2 fmul matrix shade_weight).
Definition cls_prom : float64 :=
  sum_axes01 (mmap2 fmul matrix prom_weight).

Definition create_haralick : array1 :=
  [homo; asm; contrast; energy; corr; mean; stdev; cls_shade; cls_prom].

End Haralick.

(** ** [FeaturesLists.create_matrix_list] *)

(** [a[i] = v] on a list, and [m[i, j] = v] on a 2-D array (both indices in
    range wherever the source assigns). *)
Fixpoint set_nth (A : Type) (l : list A) (i : nat) (v : A) : list A :=
  match l, i with
  | [], _ => []
  | _ :: l', O => v :: l'
  | x :: l', S i' => x :: set_nth l' i' v
  end.

Definition set2 (m : array2) (i j : nat) (v : float64) : array2 :=
  set_nth m i (set_nth (nth i m []) j v).

(** [np.argmax] of a flattened array, as numpy's loop runs: the running
    maximum moves to an element unless that element is [<=] it, and the scan
    stops at the first [nan].  (On an empty array numpy raises; the source
    never gets there.) *)
Fixpoint argmax_from (mp : float64) (mi i : nat) (l : array1) : nat :=
  match l with
  | [] => mi
  | x :: l' =>
      if is_nan mp then mi
      else if fleb x mp then argmax_from mp mi (S i) l'
           else argmax_from x i (S i) l'
  end.

Definition np_argmax (l : array1) : nat :=
  match l with
  | [] => 0
  | x :: l' => argmax_from x 0 1 l'
  end.

(** [np.unravel_index(idx, shape)] for a 2-D shape. *)
Definition unravel_index (idx : nat) (shape : nat * nat) : nat * nat :=
  (idx / snd shape, idx mod snd shape).

(** [P[:, :, d, a]] of a 4-D array with at least [d + 1] distances and
    [a + 1] angles in every cell, as [greycomatrix] returns for the lists it
    is given. *)
Definition slice4 (P : array4) (d a : nat) : array2 :=
  mmap (fun cell : list array1 => nth a (nth d cell []) NaN) P.

(** [np.zeros(shape=(r, c))] *)
Definition np_zeros (r c : nat) : array2 := tabulate r c (fun _ _ => fzero).

(** [list(itertools.product(np.arange(0, r), np.arange(0, c)))] *)
Definition product_range (r c : nat) : list (nat * nat) :=
  list_prod (seq 0 r) (seq 0 c).

(** The variables that [create_matrix_list] updates.  [max_chi] is unbound
    until the inner loop has run once. *)
Record batch_state : Type := mk_state {
  matrix_list : list array4;
  inputs_list : list (Z * Z);
  haralick_list : list array1;
  chisum : array2;
  max_chi : option (nat * nat)
}.

Section Batch.

(** The image type and skimage's [greycomatrix] are outside the
    repository: [greycomatrix image distances angles symmetric normed] is
    the 4-D array of tallies, indexed [i, j, distance, angle]. *)
Variable image : Type.
Variable greycomatrix :
  image -> list Z -> list Z -> bool -> bool -> array4.
Variable np_sqrt : float64 -> float64.

(** [uninit k d a] is what the array allocated by [np.divide] holds when
    candidate [(d, a)] of the image at position [k] is scored. *)
Variable uninit : nat -> nat -> nat -> nat -> nat -> float64.

(** [ImageFeatures.create_matrix] *)
Definition create_matrix (img : image) (distance angle : option (list Z))
  (symmetric normalise : bool) : array4 :=
  let distance := match distance with None => [1%Z] | Some d => d end in
  let angle := match angle with None => [0%Z] | Some a => a end in
  greycomatrix img distance angle symmetric normalise.

Variable distances angles : list Z.

Definition perms : list (nat * nat) :=
  product_range (length distances) (length angles).

(** The pair [(distances[i], angles[j])]. *)
Definition offset_at (mc : nat * nat) : Z * Z :=
  (nth (fst mc) distances 0%Z, nth (snd mc) angles 0%Z).

(** One round of the inner loop, for the candidate [perm] of the image at
    position [k]. *)
Definition score_candidate (k : nat) (non_norm_mat : array4)
  (st : batch_state) (perm : nat * nat) : batch_state :=
  let chisum' :=
    set2 (chisum st) (fst perm) (snd perm)
      (compute_chi_sum (uninit k (fst perm) (snd perm))
         (slice4 non_norm_mat (fst perm) (snd perm))) in
  let max_chi' :=
    unravel_index (np_argmax (ravel chisum'))
      (shape0 chisum', shape1 chisum') in
  mk_state (matrix_list st)
           (inputs_list st ++ [offset_at max_chi'])
           (haralick_list st) chisum' (Some max_chi').

(** The body of the outer loop.  [None] is the [NameError] that Python
    raises when [max_chi] is read before the inner loop ever assigned
    it. *)
Definition process_image (k : nat) (img : image) (st : batch_state)
  : option batch_state :=
  let non_norm_mat :=
    create_matrix img (Some distances) (Some angles) false false in
  let st1 := fold_left (score_candidate k non_norm_mat) perms st in
  match max_chi st1 with
  | None => None
  | Some mc =>
      let optimal_matrix :=
        create_matrix img (Some [nth (fst mc) distances 0%Z])
          (Some [nth (snd mc) angles 0%Z]) false true in
      let haralick := create_haralick np_sqrt (slice4 optimal_matrix 0 0) in
      Some (mk_state (matrix_list st1 ++ [optimal_matrix])
                     (inputs_list st1)
                     (haralick_list st1 ++ [haralick])
                     (chisum st1) (max_chi st1))
  end.

Fixpoint process_images (k : nat) (image_list : list image)
  (st : batch_state) : option batch_state :=
  match image_list with
  | [] => Some st
  | img :: rest =>
      match process_image k img st with
      | None => None
      | Some st' => process_images (S k) rest st'
      end
  end.

Definition initial_state : batch_state :=
  mk_state [] [] [] (np_zeros (length distances) (length angles)) None.

Definition create_matrix_list (image_list : list image)
  : option (list array4 * list (Z * Z) * list array1) :=
  match process_images 0 image_list initial_state with
  | None => None
  | Some st => Some (matrix_list st, inputs_list st, haralick_list st)
  end.

End Batch.

(** ** The score as the specification words it

    The chi-square statistic against the independence expectation
    [E[i,j] = row_total[i] * col_total[j] / total_sum], with [row_total[i]]
    the sum of row [i] and [col_total[j]] the sum of column [j]; the cells
    whose expectation is zero contribute zero. *)

(** The sum of [f 0], ..., [f (n - 1)]. *)
Definition sum_upto (n : nat) (f : nat -> float64) : float64 :=
  vsum (map f (seq 0 n)).

Definition row_total (n : nat) (m : array2) (i : nat) : float64 :=
  sum_upto n (fun j => get m i j).
Definition col_total (n : nat) (m : array2) (j : nat) : float64 :=
  sum_upto n (fun i => get m i j).
Definition total_sum (n : nat) (m : array2) : float64 :=
  sum_upto n (fun i => row_total n m i).

Definition expectation (n : nat) (m : array2) (i j : nat) : float64 :=
  fdiv (fmul (row_total n m i) (col_total n m j)) (total_sum n m).

Definition chi_term (x e : float64) : float64 :=
  if feqb e fzero then fzero else fdiv (fpow (fsub x e) 2) e.

Definition chi_square_in_words (n : nat) (m : array2) : float64 :=
  sum_upto n (fun i => sum_upto n (fun j =>
    chi_term (get m i j) (expectation n m i j))).

(** Rows and columns exactly independent: every cell is its expectation. *)
Definition independent (n : nat) (m : array2) : Prop :=
  forall i j, i < n -> j < n -> get m i j = expectation n m i j.

Definition square (n : nat) (m : array2) : Prop :=
  length m = n /\ Forall (fun r => length r = n) m.

(** All cells finite and not below zero. *)
Definition nonneg (x : float64) : Prop :=
  match x with Fin q => (0 <= q)%Qc | _ => False end.
Definition nonneg_matrix (m : array2) : Prop :=
  Forall (Forall nonneg) m.
Definition positive (x : float64) : Prop :=
  match x with Fin q => (0 < q)%Qc | _ => False end.

(** [c * m] for a scalar [c]. *)
Definition scale (c : float64) (m : array2) : array2 := mmap (fmul c) m.

(** The expectation [compute_chi_sum] forms for cell [(i, j)]: the total of
    column [i] times the total of row [j], over the total. *)
Definition code_expectation (n : nat) (m : array2) (i j : nat) : float64 :=
  fdiv (fmul (col_total n m i) (row_total n m j)) (total_sum n m).

(** [m[i, j] = m[j, i]] for all cells. *)
Definition symmetric (n : nat) (m : array2) : Prop :=
  forall i j, i < n -> j < n -> get m i j = get m j i.


(** Whether the candidate [(i, j)] is among those of [l]. *)
Definition scored (l : list (nat * nat)) (i j : nat) : bool :=
  existsb (fun c => Nat.eqb i (fst c) && Nat.eqb j (snd c)) l.

Fixpoint map_from (A B : Type) (f : nat -> A -> B) (k : nat) (l : list A)
  : list B :=
  match l with
  | [] => []
  | x :: l' => f k x :: map_from f (S k) l'
  end.

(** ** What [create_matrix_list] computes, as functions *)

Section BatchTrace.

Variable image : Type.
Variable greycomatrix :
  image -> list Z -> list Z -> bool -> bool -> array4.
Variable np_sqrt : float64 -> float64.
Variable uninit : nat -> nat -> nat -> nat -> nat -> float64.
Variable distances angles : list Z.

(** The score of candidate [(d, a)] of the image [img] at position [k],
    the grid of all of them, and the position [np.argmax] finds in a
    grid. *)
Definition score (k : nat) (img : image) (d a : nat) : float64 :=
  compute_chi_sum (uninit k d a)
    (slice4 (create_matrix greycomatrix img (Some distances) (Some angles)
               false false) d a).

Definition score_grid (k : nat) (img : image) : array2 :=
  tabulate (length distances) (length angles) (score k img).

Definition best_of (g : array2) : nat * nat :=
  unravel_index (np_argmax (ravel g)) (shape0 g, shape1 g).

(** The offset chosen for an image, and what is built from it. *)
Definition chosen_offset (k : nat) (img : image) : Z * Z :=
  offset_at distances angles (best_of (score_grid k img)).

Definition optimal_of (k : nat) (img : image) : array4 :=
  create_matrix greycomatrix img
    (Some [fst (chosen_offset k img)]) (Some [snd (chosen_offset k img)])
    false true.

Definition haralick_of (k : nat) (img : image) : array1 :=
  create_haralick np_sqrt (slice4 (optimal_of k img) 0 0).

Definition step (k : nat) (img : image) :=
  score_candidate uninit distances angles k
    (create_matrix greycomatrix img (Some distances) (Some angles)
       false false).

(** The grid once the first [t] candidates of an image are scored, over
    a grid that held [f]; the offsets appended during the scan of one
    image; the offsets appended for a whole batch. *)
Definition partial_grid (f : nat -> nat -> float64) (k : nat) (img : image)
  (t : nat) : array2 :=
  tabulate (length distances) (length angles) (fun i j =>
    if scored (firstn t (perms distances angles)) i j
    then score k img i j else f i j).

Definition scan_trace (f : nat -> nat -> float64) (k : nat) (img : image)
  : list (Z * Z) :=
  map (fun t => offset_at distances angles
                  (best_of (partial_grid f k img (S t))))
      (seq 0 (length distances * length angles)).

Fixpoint batch_trace (f : nat -> nat -> float64) (k : nat)
  (image_list : list image) : list (Z * Z) :=
  match image_list with
  | [] => []
  | img :: rest =>
      scan_trace f k img ++ batch_trace (score k img) (S k) rest
  end.

End BatchTrace.

(** ** Instances for concrete runs *)

(** A square root for concrete runs: exact on the squares of rationals,
    rounded down to a multiple of the denominator's inverse otherwise,
    [nan] below zero. *)
Definition sqrt_down (x : float64) : float64 :=
  match x with
  | Fin q =>
      match Qnum q with
      | Zneg _ => NaN
      | n => Fin (Q2Qc (Z.sqrt (n * Zpos (Qden q)) # Qden q))
      end
  | PInf => PInf
  | NInf | NaN => NaN
  end.

(** A co-occurrence builder for concrete runs: grey levels below [levels],
    pixel pairs taken along the rows at each distance (the offset of angle
    0), tallied as [greycomatrix] tallies them. *)
Definition pixel_pairs (img : list (list nat)) (d : nat) : list (nat * nat) :=
  flat_map (fun row => combine row (skipn d row)) img.

Definition tally (pairs : list (nat * nat)) (i j : nat) : Z :=
  Z.of_nat (length (filter (fun c => Nat.eqb (fst c) i && Nat.eqb (snd c) j)
                           pairs)).

Definition row_glcm (levels : nat) (img : list (list nat))
  (distances angles : list Z) (symmetric normed : bool) : array4 :=
  tabulate levels levels (fun i j =>
    map (fun d =>
      map (fun _ : Z =>
        let pairs := pixel_pairs img (Z.to_nat d) in
        let count :=
          if symmetric then (tally pairs i j + tally pairs j i)%Z
          else tally pairs i j in
        let total :=
          if symmetric then (2 * Z.of_nat (length pairs))%Z
          else Z.of_nat (length pairs) in
        if normed
        then fdiv (of_Z count) (of_Z (if Z.eqb total 0 then 1 else total))
        else of_Z count)
      angles)
    distances).

(** Four 4 x 4 images of two grey levels. *)
Definition stripes : list (list nat) :=
  [[0;1;1;0];[1;0;0;1];[0;1;1;0];[1;0;0;1]].
Definition checks : list (list nat) :=
  [[0;1;0;0];[1;0;1;1];[0;1;0;1];[1;0;1;0]].
Definition flat : list (list nat) :=
  [[0;0;0;0];[0;0;0;0];[0;0;0;0];[0;0;0;0]].

Definition zero_filled : nat -> nat -> nat -> nat -> nat -> float64 :=
  fun _ _ _ => no_junk.

(** The offsets a run returns. *)
Definition offsets_of (A B C : Type) (r : option (A * B * C)) : option B :=
  option_map (fun t => snd (fst t)) r.

Definition M12 : array2 := of_Zs [[1;2];[1;2]]%Z.
Definition M21 : array2 := of_Zs [[2;4];[1;2]]%Z.

Definition M1234 : array2 := mmap (fun z => qz z 10) [[1;2];[3;4]]%Z.

(** A matrix and its transpose, cell by cell. *)
Definition given (n : nat) (a : nat -> nat -> float64) : array2 :=
  tabulate n n a.
Definition flipped (n : nat) (a : nat -> nat -> float64) : array2 :=
  tabulate n n (fun i j => a j i).

(** ** The arithmetic as a parameter

    The two numeric methods, [compute_chi_sum] and [create_haralick], once
    more, line for line, over an arithmetic that is a parameter.  The
    arithmetic gives the type of the cells, the four operations, the square
    [a ** 2] of the cells of an array, the power [x ** n] of a scalar and
    [np.power], [np.sqrt], the test [x == 0], the conversion of an integer,
    the reduction [np.sum] of a contiguous 1-D array and [np.dot].  Two
    arithmetics are given below: the exact one of the value domain above,
    and IEEE 754 binary64 with rounding to nearest even, which is what the
    source runs on.  What is proved for every arithmetic holds of both. *)

Unset Implicit Arguments.

Record arithmetic : Type := mk_arithmetic {
  number : Type;
  n_nan : number;
  n_of_Z : Z -> number;
  n_add : number -> number -> number;
  n_sub : number -> number -> number;
  n_mul : number -> number -> number;
  n_div : number -> number -> number;
  n_square : number -> number;
  n_pow : number -> nat -> number;
  n_sqrt : number -> number;
  n_is_zero : number -> bool;
  n_sum : list number -> number;
  n_dot : list number -> list number -> number
}.

Module Generic.

Section Code.

Variable A : arithmetic.

Local Abbreviation num := (number A).
Local Abbreviation zero := (n_of_Z A 0).
Local Abbreviation one := (n_of_Z A 1).

(** [m[i, j]] and [m[:, j]] *)
Definition get (m : list (list num)) (i j : nat) : num :=
  nth j (nth i m []) (n_nan A).

Definition column (m : list (list num)) (j : nat) : list num :=
  map (fun r => nth j r (n_nan A)) m.

(** [m.sum(axis=0)]: numpy adds the rows one after the other into the
    result, which starts at 0. *)
Definition sum_axis0 (m : list (list num)) : list num :=
  map (fun j => fold_left (n_add A) (column m j) zero) (seq 0 (shape1 m)).

(** [m.sum(axis=1)]: every row is a contiguous 1-D array. *)
Definition sum_axis1 (m : list (list num)) : list num := map (n_sum A) m.

(** [m.sum()] and [np.sum(m)] *)
Definition msum (m : list (list num)) : num := n_sum A (ravel m).

(** [m.T] *)
Definition transpose (m : list (list num)) : list (list num) :=
  map (fun j => column m j) (seq 0 (shape1 m)).

(** [np.divide(x1, x2, where=mask)] without [out]: the cells outside the
    mask keep the content [out] of the fresh allocation. *)
Definition np_divide_where (x1 x2 : list (list num))
  (mask : list (list bool)) (out : nat -> nat -> num) : list (list num) :=
  mmap2 (fun (q : num) (c : bool * (nat * nat)) =>
           if fst c then q else out (fst (snd c)) (snd (snd c)))
        (mmap2 (n_div A) x1 x2)
        (mmap2 pair mask (tabulate (shape0 x1) (shape1 x1) pair)).

(** [ImageFeatures.compute_chi_sum] *)
Definition compute_chi_sum (out : nat -> nat -> num) (m : list (list num))
  : num :=
  let row_matrix :=
    reshape (np_repeat (sum_axis0 m) (shape0 m)) (shape0 m) (shape1 m) in
  let col_matrix :=
    transpose
      (reshape (np_repeat (sum_axis1 m) (shape0 m)) (shape0 m) (shape1 m)) in
  let matrix_rc_totals :=
    mmap (fun x => n_div A x (msum m))
         (mmap2 (n_mul A) row_matrix col_matrix) in
  let expected_values :=
    mmap (n_square A) (mmap2 (n_sub A) m matrix_rc_totals) in
  msum (np_divide_where expected_values matrix_rc_totals
          (mmap (fun x => negb (n_is_zero A x)) matrix_rc_totals) out).

(** [np.apply_over_axes(np.sum, a, axes=(0, 1))[0, 0]]: the totals along
    axis 0, then the total of that row. *)
Definition sum_axes01 (a : list (list num)) : num := n_sum A (sum_axis0 a).

(** [values[keys == k].sum()] *)
Definition masked_sum (keys : list Z) (values : list num) (k : Z) : num :=
  n_sum A
    (map snd (filter (fun c => Z.eqb (fst c) k) (combine keys values))).

Section Haralick.

Variable matrix : list (list num).

Definition level : nat := shape0 matrix.

Definition I_times_J : list (list Z) :=
  tabulate level level (fun i j => (Z.of_nat i * Z.of_nat j)%Z).
Definition I_minus_J : list (list Z) :=
  tabulate level level (fun i j => (Z.of_nat i - Z.of_nat j)%Z).
Definition I_plus_J : list (list Z) :=
  tabulate level level (fun i j => (Z.of_nat i + Z.of_nat j)%Z).

Definition ij : list (list Z) := I_times_J.

Definition homo_weight : list (list num) :=
  mmap (fun d => n_div A one (n_add A one (n_of_Z A (d ^ 2)))) I_minus_J.
Definition homo : num := sum_axes01 (mmap2 (n_mul A) matrix homo_weight).

Definition con_weight : list (list num) :=
  mmap (fun d => n_of_Z A (d ^ 2)) I_minus_J.
Definition contrast : num :=
  sum_axes01 (mmap2 (n_mul A) matrix con_weight).

Definition asm : num := sum_axes01 (mmap (n_square A) matrix).
Definition energy : num := n_sqrt A asm.

Definition k : list Z := arange (length matrix).
Definition tk : list Z := arange (2 * length matrix).
Definition p : list (list num) :=
  mmap (fun x => n_div A x (msum matrix)) matrix.
Definition pravel : list num := ravel p.
Definition px : list num := sum_axis0 p.
Definition py : list num := sum_axis1 p.

Definition ux : num := n_dot A px (map (n_of_Z A) k).
Definition uy : num := n_dot A py (map (n_of_Z A) k).
Definition vx : num :=
  n_sub A (n_dot A px (map (fun z => n_of_Z A (z ^ 2)) k)) (n_pow A ux 2).
Definition vy : num :=
  n_sub A (n_dot A py (map (fun z => n_of_Z A (z ^ 2)) k)) (n_pow A uy 2).
Definition sx : num := n_sqrt A vx.
Definition sy : num := n_sqrt A vy.

Definition corr : num :=
  if n_is_zero A sx || n_is_zero A sy then one
  else n_mul A (n_div A (n_div A one sx) sy)
         (n_sub A (n_dot A (map (n_of_Z A) (ravel ij)) pravel)
                  (n_mul A ux uy)).

Definition idx1 : list Z := arange (level * 2).
Definition idx2 : list Z := arange level.

Definition px_plus_y : list num :=
  map (masked_sum (ravel I_plus_J) (ravel matrix)) idx1.
Definition px_minus_y : list num :=
  map (masked_sum (ravel (mmap Z.abs I_minus_J)) (ravel matrix)) idx2.

Definition mean : num := n_dot A (map (n_of_Z A) tk) px_plus_y.
Definition stdev : num :=
  n_sqrt A
    (n_sub A (n_dot A (map (fun z => n_of_Z A (z ^ 2)) tk) px_plus_y)
             (n_pow A mean 2)).

Definition centred : list (list num) :=
  mmap (fun s => n_sub A (n_sub A (n_of_Z A s) ux) uy) I_plus_J.
Definition shade_weight : list (list num) :=
  mmap (fun x => n_pow A x 3) centred.
Definition prom_weight : list (list num) :=
  mmap (fun x => n_pow A x 4) centred.

Definition cls_shade : num :=
  sum_axes01 (mmap2 (n_mul A) matrix shade_weight).
Definition cls_prom : num :=
  sum_axes01 (mmap2 (n_mul A) matrix prom_weight).

(** [ImageFeatures.create_haralick] *)
Definition create_haralick : list num :=
  [homo; asm; contrast; energy; corr; mean; stdev; cls_shade; cls_prom].

End Haralick.

End Code.

End Generic.

Set Implicit Arguments.

(** *** The exact arithmetic

    The value domain above, the sums and the dot product being taken from
    left to right; [np.sqrt] stays a parameter. *)
Definition exact_arithmetic (np_sqrt : float64 -> float64) : arithmetic :=
  mk_arithmetic float64 NaN of_Z fadd fsub fmul fdiv (fun x => fpow x 2)
    fpow np_sqrt (fun x => feqb x fzero) vsum np_dot.

(** *** IEEE 754 binary64

    The operations are those of the specification of binary floating-point
    arithmetic of the Standard Library, at precision 53 and maximal exponent
    1024, rounding to nearest, ties to even. *)
Definition binary64 : Type := spec_float.

Definition b64_add : binary64 -> binary64 -> binary64 := SFadd 53 1024.
Definition b64_sub : binary64 -> binary64 -> binary64 := SFsub 53 1024.
Definition b64_mul : binary64 -> binary64 -> binary64 := SFmul 53 1024.
Definition b64_div : binary64 -> binary64 -> binary64 := SFdiv 53 1024.
Definition b64_sqrt : binary64 -> binary64 := SFsqrt 53 1024.

(** The float64 nearest to an integer; exact below 2^53. *)
Definition b64_of_Z (z : Z) : binary64 := binary_normalize 53 1024 z 0 false.

Definition b64_zero : binary64 := S754_zero false.

(** [x == 0.0]: holds of both zeros, not of [nan]. *)
Definition b64_is_zero (x : binary64) : bool := SFeqb x b64_zero.

(** The square of the cells of an array is the product [x * x]; so is
    [x ** 2] on a scalar, the power function of the platform being taken as
    correctly rounded on squares; what it returns for the other exponents
    is the parameter [np_power]. *)
Definition b64_square (x : binary64) : binary64 := b64_mul x x.

Definition b64_pow (np_power : binary64 -> nat -> binary64) (x : binary64)
  (n : nat) : binary64 :=
  match n with
  | 2 => b64_mul x x
  | _ => np_power x n
  end.

(** [np.sum] of a contiguous 1-D array, as numpy's pairwise summation runs:
    fewer than 8 elements are added from left to right; up to 128 elements
    are added in 8 interleaved partial sums, combined two by two, and the
    elements left after the last full group of 8 are added one by one;
    longer arrays are split in two.  The result is added to the initial
    value 0 of the reduction. *)
Definition add_lanes (r block : list binary64) : list binary64 :=
  map2 b64_add r block.

Fixpoint lanes (fuel : nat) (r a : list binary64)
  : list binary64 * list binary64 :=
  match fuel with
  | O => (r, a)
  | S fuel' =>
      if 8 <=? length a
      then lanes fuel' (add_lanes r (firstn 8 a)) (skipn 8 a)
      else (r, a)
  end.

Definition combine_lanes (r : list binary64) : binary64 :=
  let r_ (i : nat) := nth i r b64_zero in
  b64_add (b64_add (b64_add (r_ 0) (r_ 1)) (b64_add (r_ 2) (r_ 3)))
          (b64_add (b64_add (r_ 4) (r_ 5)) (b64_add (r_ 6) (r_ 7))).

Definition sum_unrolled (a : list binary64) : binary64 :=
  let '(r, rest) := lanes (length a) (firstn 8 a) (skipn 8 a) in
  fold_left b64_add rest (combine_lanes r).

Fixpoint pairwise_sum (fuel : nat) (a : list binary64) : binary64 :=
  let n := length a in
  if n <? 8 then fold_left b64_add a b64_zero
  else if n <=? 128 then sum_unrolled a
  else
    match fuel with
    | O => sum_unrolled a
    | S fuel' =>
        let n2 := n / 2 - (n / 2) mod 8 in
        b64_add (pairwise_sum fuel' (firstn n2 a))
                (pairwise_sum fuel' (skipn n2 a))
    end.

Definition b64_sum (a : list binary64) : binary64 :=
  b64_add b64_zero (pairwise_sum (length a) a).

(** [np.dot] of two 1-D arrays: the rounded products added from left to
    right.  (The order and the use of fused operations are the BLAS's; the
    results below in binary64 only read dot products whose products are
    exact and of which at most two are not zero, so that neither
    matters.) *)
Definition b64_dot (a b : list binary64) : binary64 :=
  fold_left b64_add (map2 b64_mul a b) b64_zero.

Definition ieee (np_power : binary64 -> nat -> binary64) : arithmetic :=
  mk_arithmetic binary64 S754_nan b64_of_Z b64_add b64_sub b64_mul b64_div
    b64_square (b64_pow np_power) b64_sqrt b64_is_zero b64_sum b64_dot.

(** The float64 quotient [a / b] of two integers, and matrices of such
    quotients. *)
Definition ratio (a b : Z) : binary64 := b64_div (b64_of_Z a) (b64_of_Z b).

Definition ratios (b : Z) (m : list (list Z)) : list (list binary64) :=
  mmap (fun a => ratio a b) m.

(** A power function for concrete runs: repeated products. *)
Fixpoint repeated_product (x : binary64) (n : nat) : binary64 :=
  match n with
  | O => b64_of_Z 1
  | S O => x
  | S n' => b64_mul x (repeated_product x n')
  end.

(** ** The descriptors as the specification words them

    The nine statistics of section 4.3 of the specification, for a matrix
    of [n] grey levels, written cell by cell over any arithmetic.  A sum
    over both indices is taken as [create_haralick] takes it: one total per
    column, its cells added from the first row to the last, then the total
    of these.  Where the source names the marginals the other way round
    (its [px] holds the totals of the columns, the [py] of the
    specification), the formulas below keep the names of the
    specification. *)

Unset Implicit Arguments.

Section InWords.

Variable A : arithmetic.
Variable n : nat.
Variable m : list (list (number A)).

Local Abbreviation num := (number A).
Local Abbreviation zero := (n_of_Z A 0).
Local Abbreviation one := (n_of_Z A 1).

Definition cell (i j : nat) : num := Generic.get A m i j.

(** The cells [(i, j)] in row-major order. *)
Definition cells_in_order : list (nat * nat) :=
  list_prod (seq 0 n) (seq 0 n).

(** The sum over [i] and [j] of [t i j]. *)
Definition total_over (t : nat -> nat -> num) : num :=
  n_sum A
    (map (fun j => fold_left (n_add A) (map (fun i => t i j) (seq 0 n)) zero)
         (seq 0 n)).

Definition squared_distance (i j : nat) : Z :=
  ((Z.of_nat i - Z.of_nat j) ^ 2)%Z.

(** [homogeneity = sum of matrix[i,j] / (1 + (i-j)^2)], the quotient being
    formed as the product by [1 / (1 + (i-j)^2)]. *)
Definition homogeneity_in_words : num :=
  total_over (fun i j =>
    n_mul A (cell i j)
      (n_div A one (n_add A one (n_of_Z A (squared_distance i j))))).

(** [asm = sum of matrix[i,j]^2] *)
Definition asm_in_words : num :=
  total_over (fun i j => n_square A (cell i j)).

(** [contrast = sum of matrix[i,j] * (i-j)^2] *)
Definition contrast_in_words : num :=
  total_over (fun i j => n_mul A (cell i j) (n_of_Z A (squared_distance i j))).

(** [energy = sqrt(asm)] *)
Definition energy_in_words : num := n_sqrt A asm_in_words.

(** The matrix over its total (the specification takes the matrix as
    normalised; the source divides by the total in any case), and its
    marginals: [marginal_x i] is the sum of row [i], [marginal_y j] the sum
    of column [j]. *)
Definition grand_total : num :=
  n_sum A (map (fun c => cell (fst c) (snd c)) cells_in_order).

Definition probability (i j : nat) : num := n_div A (cell i j) grand_total.

Definition marginal_x (i : nat) : num :=
  n_sum A (map (fun j => probability i j) (seq 0 n)).

Definition marginal_y (j : nat) : num :=
  fold_left (n_add A) (map (fun i => probability i j) (seq 0 n)) zero.

Definition grey_levels : list num :=
  map (fun i => n_of_Z A (Z.of_nat i)) (seq 0 n).

Definition squared_grey_levels : list num :=
  map (fun i => n_of_Z A (Z.of_nat i ^ 2)) (seq 0 n).

(** [ux = sum of i * px[i]], [vx = sum of i^2 * px[i] - ux^2],
    [sx = sqrt(vx)], and the same for [y]. *)
Definition mean_x : num := n_dot A (map marginal_x (seq 0 n)) grey_levels.
Definition mean_y : num := n_dot A (map marginal_y (seq 0 n)) grey_levels.

Definition variance_x : num :=
  n_sub A (n_dot A (map marginal_x (seq 0 n)) squared_grey_levels)
          (n_pow A mean_x 2).
Definition variance_y : num :=
  n_sub A (n_dot A (map marginal_y (seq 0 n)) squared_grey_levels)
          (n_pow A mean_y 2).

Definition deviation_x : num := n_sqrt A variance_x.
Definition deviation_y : num := n_sqrt A variance_y.

(** [correlation = 1] if [sx == 0] or [sy == 0], and otherwise
    [(sum of i * j * p[i,j] - ux * uy) / (sx * sy)], the quotient being
    formed as the product by [1 / sy / sx]. *)
Definition correlation_in_words : num :=
  if n_is_zero A deviation_y || n_is_zero A deviation_x then one
  else
    n_mul A (n_div A (n_div A one deviation_y) deviation_x)
      (n_sub A
         (n_dot A
            (map (fun c => n_of_Z A (Z.of_nat (fst c) * Z.of_nat (snd c)))
                 cells_in_order)
            (map (fun c => probability (fst c) (snd c)) cells_in_order))
         (n_mul A mean_y mean_x)).

(** [p_plus[k] = sum of matrix[i,j] over i + j = k], for [k] below [2 n]. *)
Definition p_plus (k : nat) : num :=
  n_sum A
    (map (fun c => cell (fst c) (snd c))
         (filter (fun c => Nat.eqb (fst c + snd c) k) cells_in_order)).

(** [mean = sum of k * p_plus[k]] and
    [stdev = sqrt(sum of k^2 * p_plus[k] - mean^2)] *)
Definition mean_in_words : num :=
  n_dot A (map (fun k => n_of_Z A (Z.of_nat k)) (seq 0 (2 * n)))
          (map p_plus (seq 0 (2 * n))).

Definition stdev_in_words : num :=
  n_sqrt A
    (n_sub A
       (n_dot A (map (fun k => n_of_Z A (Z.of_nat k ^ 2)) (seq 0 (2 * n)))
                (map p_plus (seq 0 (2 * n))))
       (n_pow A mean_in_words 2)).

(** [cluster_shade = sum of (i + j - ux - uy)^3 * matrix[i,j]] and
    [cluster_prominence] with the power 4; the two means are subtracted in
    the order of the source, the mean of the columns first. *)
Definition centred_level (i j : nat) : num :=
  n_sub A (n_sub A (n_of_Z A (Z.of_nat i + Z.of_nat j)) mean_y) mean_x.

Definition cluster_shade_in_words : num :=
  total_over (fun i j => n_mul A (cell i j) (n_pow A (centred_level i j) 3)).

Definition cluster_prominence_in_words : num :=
  total_over (fun i j => n_mul A (cell i j) (n_pow A (centred_level i j) 4)).

(** The vector of section 4.3, in its order. *)
Definition haralick_in_words : list num :=
  [homogeneity_in_words; asm_in_words; contrast_in_words; energy_in_words;
   correlation_in_words; mean_in_words; stdev_in_words; cluster_shade_in_words;
   cluster_prominence_in_words].

End InWords.

Set Implicit Arguments.

(** ** The score, cell by cell

    What lines 246 to 256 of the source compute, written cell by cell over
    any arithmetic: the total of a column (its cells added from the first
    row to the last), the total of a row, the expectation the source forms
    for the cell [(i, j)], and the sum over the cells in row-major order. *)

Unset Implicit Arguments.

Section ScoreCellByCell.

Variable A : arithmetic.
Variable n : nat.
Variable m : list (list (number A)).

Definition total_of_column (j : nat) : number A :=
  fold_left (n_add A) (map (fun i => cell A m i j) (seq 0 n)) (n_of_Z A 0).

Definition total_of_row (i : nat) : number A :=
  n_sum A (map (fun j => cell A m i j) (seq 0 n)).

(** The cell [(i, j)] of [matrix_rc_totals]: the total of column [i] times
    the total of row [j], over the total of the matrix. *)
Definition expectation_in_code (i j : nat) : number A :=
  n_div A (n_mul A (total_of_column i) (total_of_row j))
        (grand_total A n m).

Definition chi_sum_cell_by_cell (out : nat -> nat -> number A) : number A :=
  n_sum A
    (map (fun c =>
            let e := expectation_in_code (fst c) (snd c) in
            if negb (n_is_zero A e)
            then n_div A (n_square A (n_sub A (cell A m (fst c) (snd c)) e)) e
            else out (fst c) (snd c))
         (cells_in_order n)).

End ScoreCellByCell.

Set Implicit Arguments.

(** A matrix of [n] rows of [n] cells, whatever the cells. *)
Definition square_shape (T : Type) (n : nat) (m : list (list T)) : Prop :=
  length m = n /\ Forall (fun r => length r = n) m.

(** ** The offsets as the specification words them

    Section 4.2 of the specification: after each candidate of an image is
    scored, the best pair known at that point of the scan is recorded, the
    first one of the greatest score among the candidates of the image
    scored so far. *)
Definition best_known (distances angles : list Z)
  (s : nat -> nat -> float64) (t : nat) : Z * Z :=
  let scored_so_far := firstn (S t) (perms distances angles) in
  offset_at distances angles
    (nth (np_argmax (map (fun c => s (fst c) (snd c)) scored_so_far))
         scored_so_far (0, 0)).

Definition offsets_in_words (image : Type)
  (greycomatrix : image -> list Z -> list Z -> bool -> bool -> array4)
  (uninit : nat -> nat -> nat -> nat -> nat -> float64)
  (distances angles : list Z) (image_list : list image) : list (Z * Z) :=
  concat
    (map_from
       (fun k img =>
          map (best_known distances angles
                 (score greycomatrix uninit distances angles k img))
              (seq 0 (length distances * length angles)))
       0 image_list).

(** ** Matrices for the runs in binary64 *)

(** The tallies [[1,2],[3,4]] over their total 10. *)
Definition tenths : list (list binary64) := ratios 10 [[1;2];[3;4]]%Z.

(** The tallies [[2,1],[1,3]], and three times them. *)
Definition counts : list (list binary64) :=
  mmap b64_of_Z [[2;1];[1;3]]%Z.
Definition counts_tripled : list (list binary64) :=
  mmap (fun x => b64_mul (b64_of_Z 3) x) counts.

(** Every pair of pixels has its first grey level equal to 2: the tallies
    3, 6, 1 of the last row over their total 10. *)
Definition last_row_only : list (list binary64) :=
  ratios 10 [[0;0;0];[0;0;0];[3;6;1]]%Z.

(** The same matrix over the exact arithmetic. *)
Definition last_row_only_exact : array2 :=
  mmap (fun z => qz z 10) [[0;0;0];[0;0;0];[3;6;1]]%Z.

(** ** Further notions used in the results *)

(** No cell of the list is [nan]. *)
Definition no_nan (l : array1) : Prop :=
  forall j, j < length l -> is_nan (nth j l NaN) = false.

(** ** [ImageFeatures.convert_image] and [FeaturesLists.create_image_list]

    Reading a file ([cv2.imread]), resizing ([skimage.transform.resize]) and
    the listing of a directory ([glob.glob]) are outside the repository and
    are parameters.  An array of any shape is its shape and its cells in
    row-major order.  The cells of a resized image are binary64 values, and
    the product by 255 is the rounded one. *)

Record ndarray (A : Type) : Type := mk_array {
  shape : list nat;
  cells : list A
}.

(** An element-wise operation. *)
Definition array_map (A B : Type) (f : A -> B) (x : ndarray A) : ndarray B :=
  mk_array (shape x) (map f (cells x)).

(** What a call leaves behind: the lines it printed, and the value it
    returned, [None] when it raised an exception. *)
Record outcome (A : Type) : Type := mk_outcome {
  printed : list String.string;
  returned : option A
}.

(** [x * y] on uint8 cells, [y] an integer that fits uint8: the product
    wraps around modulo 256. *)
Definition uint8_mul (x y : Z) : Z := (x * y) mod 256.

(** The integer part of a finite float64, the fraction dropped. *)
Definition truncate (x : binary64) : option Z :=
  match x with
  | S754_zero _ => Some 0%Z
  | S754_finite s m e =>
      let a :=
        match e with
        | Zneg k => Z.shiftr (Zpos m) (Zpos k)
        | _ => Z.shiftl (Zpos m) e
        end in
      Some (if s then (- a)%Z else a)
  | S754_infinity _ | S754_nan => None
  end.

(** [x.astype('uint8')] on a float64 cell: the fraction is dropped when the
    value lies strictly between -1 and 256; what the conversion gives for
    the other values depends on the platform and is the parameter [wild]. *)
Definition astype_uint8 (wild : binary64 -> Z) (x : binary64) : Z :=
  match truncate x with
  | Some t => if (0 <=? t)%Z && (t <? 256)%Z then t else wild x
  | None => wild x
  end.

Section Message.

Import String.

Definition size_message : String.string :=
  "Error: Image size not given. Please include a reshaped image size."%string.

End Message.

(** The fields [ImageFeatures.__init__] and [FeaturesLists.__init__] set;
    an argument that is not given is [None]. *)
Record ImageFeatures : Type := mk_image_features {
  distance : option (list Z);
  angle : option (list Z)
}.

Record FeaturesLists : Type := mk_features_lists {
  image_dir : String.string;
  image_size : option nat;
  image_features : ImageFeatures
}.

(** [FeaturesLists(image_dir, image_size=...)] *)
Definition new_features_lists (dir : String.string) (size : option nat)
  : FeaturesLists :=
  mk_features_lists dir size (mk_image_features None None).

Section Conversion.

(** [imread path flag] is the uint8 array read from the file, [None] when
    the file cannot be read; [resize image output_shape] is the float64
    array [transform.resize] returns. *)
Variable imread : String.string -> Z -> option (ndarray Z).
Variable resize : ndarray Z -> nat * nat -> ndarray binary64.
Variable wild : binary64 -> Z.
Variable glob : String.string -> list String.string.

(** [ImageFeatures.convert_image].  Without an image ([imread] gave [None])
    both [transform.resize] and the product by 255 raise. *)
Definition convert_image (image : String.string) (size : option nat)
  (greyscale resize_wanted : bool) : outcome (ndarray Z) :=
  let converted_image :=
    if greyscale then imread image 0%Z else imread image 1%Z in
  match (if resize_wanted then size else None) with
  | Some s =>
      match converted_image with
      | None => mk_outcome [] None
      | Some img =>
          mk_outcome []
            (Some (array_map (astype_uint8 wild)
                     (array_map (fun x => b64_mul x (b64_of_Z 255))
                        (resize img (s, s)))))
      end
  | None =>
      match converted_image with
      | None => mk_outcome [size_message] None
      | Some img =>
          mk_outcome [size_message]
            (Some (array_map (fun x => uint8_mul x 255) img))
      end
  end.

(** The loop of [create_image_list] over the paths: every image is
    converted with the default arguments of [convert_image] (size 256, grey
    levels, resized); the first exception ends the loop. *)
Fixpoint convert_all (paths : list String.string)
  : outcome (list (ndarray Z)) :=
  match paths with
  | [] => mk_outcome [] (Some [])
  | image :: rest =>
      let r := convert_image image (Some 256) true true in
      match returned r with
      | None => mk_outcome (printed r) None
      | Some img =>
          let r' := convert_all rest in
          mk_outcome (printed r ++ printed r')
                     (option_map (cons img) (returned r'))
      end
  end.

(** [FeaturesLists.create_image_list] *)
Definition create_image_list (self : FeaturesLists)
  : outcome (list (ndarray Z)) :=
  convert_all (glob (image_dir self)).

End Conversion.

(** Readers and a resizer for concrete runs: the file of empty name holds a
    2 x 2 image and no other file can be read; resizing keeps the shape and
    maps every grey level [x] to the float64 quotient [x / 255]. *)
Definition sample_image : ndarray Z := mk_array [2; 2] [0; 1; 128; 255]%Z.

Definition read_sample (path : String.string) (flag : Z)
  : option (ndarray Z) :=
  match path with
  | String.EmptyString => Some sample_image
  | String.String _ _ => None
  end.

Definition rescale_only (img : ndarray Z) (output_shape : nat * nat)
  : ndarray binary64 :=
  array_map (fun x => ratio x 255) img.

Definition no_wild : binary64 -> Z := fun _ => 0%Z.

Definition two_samples (dir : String.string) : list String.string :=
  [String.EmptyString; String.EmptyString].

(** * Results *)

(** ** Deciding equations between computed values *)

Lemma same_value_eq (x y : float64) : same_value x y = true -> x = y.
Proof.
  destruct x as [a| | |], y as [b| | |]; simpl; try discriminate; auto.
  intros H. f_equal. apply Qc_is_canon. now apply Qeq_bool_eq.
Qed.

Lemma same_value_neq (x y : float64) : same_value x y = false -> x <> y.
Proof.
  intros H E. subst y. destruct x as [a| | |]; simpl in H; try discriminate.
  rewrite (Qeq_bool_refl a) in H. discriminate.
Qed.

Lemma feqb_eq (x y : float64) : feqb x y = true -> x = y.
Proof.
  destruct x as [a| | |], y as [b| | |]; simpl; try discriminate; auto.
  destruct (Qc_eq_dec a b); [now subst | discriminate].
Qed.

Ltac by_evaluation :=
  first [ apply same_value_eq; vm_compute; reflexivity
        | apply same_value_neq; vm_compute; reflexivity ].

(** ** Arithmetic of the value domain *)

Lemma fadd_comm (x y : float64) : fadd x y = fadd y x.
Proof.
  destruct x, y; simpl; try reflexivity. f_equal. apply Qcplus_comm.
Qed.

Lemma fadd_assoc (x y z : float64) : fadd x (fadd y z) = fadd (fadd x y) z.
Proof.
  destruct x, y, z; simpl; try reflexivity. f_equal. apply Qcplus_assoc.
Qed.

Lemma fadd_0_r (x : float64) : fadd x fzero = x.
Proof.
  destruct x; simpl; try reflexivity. f_equal. apply Qcplus_0_r.
Qed.

Lemma fadd_0_l (x : float64) : fadd fzero x = x.
Proof. rewrite fadd_comm. apply fadd_0_r. Qed.

Lemma fmul_comm (x y : float64) : fmul x y = fmul y x.
Proof.
  destruct x, y; simpl; try reflexivity. f_equal. apply Qcmult_comm.
Qed.

Lemma fsub_swap (x a b : float64) : fsub (fsub x a) b = fsub (fsub x b) a.
Proof.
  unfold fsub. rewrite <- !fadd_assoc. f_equal. apply fadd_comm.
Qed.

Ltac split_zero_tests :=
  repeat match goal with
    | H : context [Qc_eq_dec ?x ?y] |- _ =>
        destruct (Qc_eq_dec x y); [discriminate |]
    | |- context [Qc_eq_dec ?x ?y] =>
        destruct (Qc_eq_dec x y); [contradiction |]
    end.

Lemma fdiv_swap (a b : float64) :
  feqb a fzero = false -> feqb b fzero = false ->
  fdiv (fdiv fone a) b = fdiv (fdiv fone b) a.
Proof.
  destruct a as [p| | |], b as [q| | |]; intros Ha Hb; try reflexivity;
    unfold feqb, fzero, fone, of_Z in *;
    change (Q2Qc (inject_Z 0)) with 0%Qc in *;
    split_zero_tests; cbn [fdiv]; split_zero_tests;
    unfold fzero, of_Z; change (Q2Qc (inject_Z 0)) with 0%Qc;
    cbn [fdiv]; split_zero_tests; try reflexivity.
  all: unfold fzero, of_Z; f_equal;
    change (Q2Qc (inject_Z 0)) with 0%Qc;
    change (Q2Qc (inject_Z 1)) with 1%Qc; field; auto.
Qed.

(** ** Sums *)

Lemma fold_left_fadd (l : array1) (a : float64) :
  fold_left fadd l a = fadd a (vsum l).
Proof.
  unfold vsum. revert a. induction l as [|x l IH]; intros a; cbn [fold_left].
  - now rewrite fadd_0_r.
  - rewrite IH, (IH (fadd fzero x)), fadd_0_l. apply eq_sym, fadd_assoc.
Qed.

Lemma vsum_cons (x : float64) (l : array1) :
  vsum (x :: l) = fadd x (vsum l).
Proof.
  unfold vsum at 1. cbn [fold_left]. now rewrite fold_left_fadd, fadd_0_l.
Qed.

Lemma vsum_app (l1 l2 : array1) :
  vsum (l1 ++ l2) = fadd (vsum l1) (vsum l2).
Proof.
  induction l1 as [|x l1 IH]; cbn [app map concat].
  - change (vsum []) with fzero. now rewrite fadd_0_l.
  - now rewrite !vsum_cons, IH, fadd_assoc.
Qed.

Lemma vsum_zeros (A : Type) (l : list A) :
  vsum (map (fun _ => fzero) l) = fzero.
Proof.
  induction l as [|x l IH]; cbn [app map concat]; [reflexivity |].
  now rewrite vsum_cons, IH.
Qed.

Lemma vsum_map_add (A : Type) (f h : A -> float64) (l : list A) :
  vsum (map (fun x => fadd (f x) (h x)) l) =
  fadd (vsum (map f l)) (vsum (map h l)).
Proof.
  induction l as [|x l IH]; cbn [app map concat]; [reflexivity |].
  rewrite !vsum_cons, IH, !fadd_assoc. f_equal.
  rewrite <- !fadd_assoc. f_equal. apply fadd_comm.
Qed.

Lemma vsum_swap (A B : Type) (a : A -> B -> float64) (l1 : list A)
  (l2 : list B) :
  vsum (map (fun x => vsum (map (fun y => a x y) l2)) l1) =
  vsum (map (fun y => vsum (map (fun x => a x y) l1)) l2).
Proof.
  induction l1 as [|x l1 IH]; cbn [app map concat].
  - change (vsum []) with fzero. now rewrite vsum_zeros.
  - rewrite vsum_cons, IH, <- vsum_map_add. f_equal.
    apply map_ext. intros y. now rewrite vsum_cons.
Qed.

Lemma vsum_concat (ls : list array1) :
  vsum (concat ls) = vsum (map vsum ls).
Proof.
  induction ls as [|l ls IH]; cbn [app map concat]; [reflexivity |].
  now rewrite vsum_app, vsum_cons, IH.
Qed.

Lemma sum_upto_ext (n : nat) (f h : nat -> float64) :
  (forall i, i < n -> f i = h i) -> sum_upto n f = sum_upto n h.
Proof.
  intros H. unfold sum_upto. f_equal. apply map_ext_in.
  intros i Hi. apply in_seq in Hi. apply H. lia.
Qed.

Lemma sum_upto_swap (n m : nat) (a : nat -> nat -> float64) :
  sum_upto n (fun i => sum_upto m (fun j => a i j)) =
  sum_upto m (fun j => sum_upto n (fun i => a i j)).
Proof. apply vsum_swap. Qed.

(** ** Arrays given cell by cell *)

Lemma nth_map_seq (A : Type) (g : nat -> A) (d : A) (n s i : nat) :
  i < n -> nth i (map g (seq s n)) d = g (s + i).
Proof.
  revert s i. induction n as [|n IH]; intros s i Hi; [lia |].
  destruct i as [|i]; simpl.
  - f_equal. lia.
  - rewrite IH by lia. f_equal. lia.
Qed.

Lemma set_nth_map_seq (A : Type) (g : nat -> A) (v : A) (n s i : nat) :
  i < n ->
  set_nth (map g (seq s n)) i v =
  map (fun x => if Nat.eqb x (s + i) then v else g x) (seq s n).
Proof.
  revert s i. induction n as [|n IH]; intros s i Hi; [lia |].
  destruct i as [|i]; simpl.
  - rewrite Nat.add_0_r, Nat.eqb_refl. f_equal.
    apply map_ext_in. intros x Hx. apply in_seq in Hx.
    destruct (Nat.eqb_spec x s); [lia | reflexivity].
  - destruct (Nat.eqb_spec s (s + S i)); [lia |]. f_equal.
    rewrite IH by lia. apply map_ext. intros x.
    replace (S s + i) with (s + S i) by lia. reflexivity.
Qed.

Lemma set2_tabulate (r c d a : nat) (f : nat -> nat -> float64)
  (v : float64) :
  d < r -> a < c ->
  set2 (tabulate r c f) d a v =
  tabulate r c (fun i j => if Nat.eqb i d && Nat.eqb j a then v else f i j).
Proof.
  intros Hd Ha. unfold set2, tabulate.
  rewrite nth_map_seq, set_nth_map_seq by assumption. simpl.
  apply map_ext. intros i. destruct (Nat.eqb_spec i d) as [-> | Hne]; simpl.
  - rewrite set_nth_map_seq by assumption. reflexivity.
  - reflexivity.
Qed.

Lemma tabulate_ext (A : Type) (r c : nat) (f g : nat -> nat -> A) :
  (forall i j, i < r -> j < c -> f i j = g i j) ->
  tabulate r c f = tabulate r c g.
Proof.
  intros H. unfold tabulate. apply map_ext_in. intros i Hi.
  apply in_seq in Hi. apply map_ext_in. intros j Hj. apply in_seq in Hj.
  apply H; lia.
Qed.

Lemma shape0_tabulate (A : Type) (r c : nat) (f : nat -> nat -> A) :
  shape0 (tabulate r c f) = r.
Proof. unfold shape0, tabulate. now rewrite length_map, length_seq. Qed.

Lemma shape1_tabulate (A : Type) (r c : nat) (f : nat -> nat -> A) :
  0 < r -> shape1 (tabulate r c f) = c.
Proof.
  intros Hr. destruct r as [|r]; [lia |]. unfold shape1, tabulate. simpl.
  now rewrite length_map, length_seq.
Qed.

(** ** The scan of the candidates *)

Lemma argmax_from_constant (s : float64) (mi i n : nat) :
  argmax_from s mi i (repeat s n) = mi.
Proof.
  revert i. induction n as [|n IH]; intros i; simpl; [reflexivity |].
  destruct s as [q| | |]; simpl; try reflexivity; try apply IH.
  unfold fleb. rewrite (proj1 (Qceq_alt q q) eq_refl). apply IH.
Qed.

Lemma map_constant (A B : Type) (s : B) (l : list A) :
  map (fun _ => s) l = repeat s (length l).
Proof. induction l as [|x l IH]; simpl; [reflexivity | now rewrite IH]. Qed.

Lemma ravel_constant (r c : nat) (s : float64) :
  ravel (tabulate r c (fun _ _ => s)) = repeat s (r * c).
Proof.
  unfold ravel, tabulate. rewrite !map_constant, !length_seq.
  induction r as [|r IH]; simpl; [reflexivity |].
  rewrite IH. symmetry. apply repeat_app.
Qed.

Lemma np_argmax_constant (r c : nat) (s : float64) :
  np_argmax (ravel (tabulate r c (fun _ _ => s))) = 0.
Proof.
  rewrite ravel_constant. destruct (r * c) as [|n]; simpl; [reflexivity |].
  apply argmax_from_constant.
Qed.

Lemma length_map_from (A B : Type) (f : nat -> A -> B) (l : list A) :
  forall k, length (map_from f k l) = length l.
Proof.
  induction l as [|x l IH]; intros k; simpl; [| rewrite IH]; reflexivity.
Qed.

Lemma nth_error_map_from (A B : Type) (f : nat -> A -> B) (l : list A) :
  forall k j x, nth_error l j = Some x ->
                nth_error (map_from f k l) j = Some (f (k + j) x).
Proof.
  induction l as [|y l IH]; intros k j x H; destruct j as [|j]; simpl in *;
    try discriminate.
  - injection H as ->. now rewrite Nat.add_0_r.
  - rewrite (IH (S k) j x H). do 2 f_equal. lia.
Qed.

(** ** Array operations on arrays given cell by cell *)

Lemma map2_map (A B C X : Type) (f : A -> B -> C) (a : X -> A) (b : X -> B)
  (l : list X) :
  map2 f (map a l) (map b l) = map (fun x => f (a x) (b x)) l.
Proof.
  induction l as [|x l IH]; simpl; [reflexivity | now rewrite IH].
Qed.

Lemma map2_app (A B C : Type) (f : A -> B -> C) (l1 l1' : list A)
  (l2 l2' : list B) :
  length l1 = length l2 ->
  map2 f (l1 ++ l1') (l2 ++ l2') = map2 f l1 l2 ++ map2 f l1' l2'.
Proof.
  revert l2. induction l1 as [|x l1 IH]; intros [|y l2] H; simpl in *;
    try discriminate; [reflexivity |].
  rewrite IH by lia. reflexivity.
Qed.

Lemma mmap2_tabulate (A B C : Type) (f : A -> B -> C) (r c : nat)
  (a : nat -> nat -> A) (b : nat -> nat -> B) :
  mmap2 f (tabulate r c a) (tabulate r c b) =
  tabulate r c (fun i j => f (a i j) (b i j)).
Proof.
  unfold mmap2, tabulate. rewrite map2_map. apply map_ext.
  intros i. apply map2_map.
Qed.

Lemma mmap_tabulate (A B : Type) (f : A -> B) (r c : nat)
  (a : nat -> nat -> A) :
  mmap f (tabulate r c a) = tabulate r c (fun i j => f (a i j)).
Proof.
  unfold mmap, tabulate. rewrite map_map. apply map_ext.
  intros i. apply map_map.
Qed.

Lemma column_tabulate (r c j : nat) (a : nat -> nat -> float64) :
  j < c -> column (tabulate r c a) j = map (fun i => a i j) (seq 0 r).
Proof.
  intros Hj. unfold column, tabulate. rewrite map_map. apply map_ext.
  intros i. now rewrite nth_map_seq.
Qed.

Lemma shape1_tabulate_square (A : Type) (n : nat) (a : nat -> nat -> A) :
  shape1 (tabulate n n a) = n.
Proof.
  destruct n as [|n]; [reflexivity |]. apply shape1_tabulate. lia.
Qed.

Lemma sum_axis0_tabulate (n : nat) (a : nat -> nat -> float64) :
  sum_axis0 (tabulate n n a) =
  map (fun j => sum_upto n (fun i => a i j)) (seq 0 n).
Proof.
  unfold sum_axis0. rewrite shape1_tabulate_square. apply map_ext_in.
  intros j Hj. apply in_seq in Hj. now rewrite column_tabulate by lia.
Qed.

Lemma sum_axis1_tabulate (r c : nat) (a : nat -> nat -> float64) :
  sum_axis1 (tabulate r c a) =
  map (fun i => sum_upto c (fun j => a i j)) (seq 0 r).
Proof. unfold sum_axis1, tabulate. now rewrite map_map. Qed.

Lemma sum_axes01_tabulate (n : nat) (a : nat -> nat -> float64) :
  sum_axes01 (tabulate n n a) =
  sum_upto n (fun j => sum_upto n (fun i => a i j)).
Proof. unfold sum_axes01. now rewrite sum_axis0_tabulate. Qed.

Lemma msum_tabulate (r c : nat) (a : nat -> nat -> float64) :
  msum (tabulate r c a) =
  sum_upto r (fun i => sum_upto c (fun j => a i j)).
Proof.
  unfold msum, ravel, tabulate. now rewrite vsum_concat, map_map.
Qed.

Lemma transpose_tabulate (n : nat) (a : nat -> nat -> float64) :
  transpose (tabulate n n a) = tabulate n n (fun i j => a j i).
Proof.
  unfold transpose. rewrite shape1_tabulate_square. unfold tabulate at 2.
  apply map_ext_in. intros j Hj. apply in_seq in Hj.
  now rewrite column_tabulate by lia.
Qed.

Lemma list_as_map_seq (A : Type) (d : A) (l : list A) :
  l = map (fun j => nth j l d) (seq 0 (length l)).
Proof.
  induction l as [|x l IH]; simpl; [reflexivity |]. f_equal.
  rewrite <- seq_shift, map_map. exact IH.
Qed.

Lemma square_tabulate (n : nat) (m : array2) :
  square n m -> m = tabulate n n (get m).
Proof.
  intros [Hlen Hrows]. unfold tabulate, get.
  transitivity (map (fun i => nth i m []) (seq 0 (length m)));
    [apply list_as_map_seq |].
  rewrite Hlen. apply map_ext_in. intros i Hi. apply in_seq in Hi.
  assert (Hr : length (nth i m []) = n).
  { rewrite Forall_forall in Hrows. apply Hrows, nth_In. lia. }
  transitivity (map (fun j => nth j (nth i m []) NaN)
                  (seq 0 (length (nth i m []))));
    [apply list_as_map_seq | now rewrite Hr].
Qed.

Lemma np_dot_map (X : Type) (a b : X -> float64) (l : list X) :
  np_dot (map a l) (map b l) = vsum (map (fun x => fmul (a x) (b x)) l).
Proof. unfold np_dot. now rewrite map2_map. Qed.

Lemma np_dot_concat (X Y : Type) (z : X -> Y -> Z)
  (a : X -> Y -> float64) (l' : list Y) (l : list X) :
  np_dot (map of_Z (concat (map (fun i => map (z i) l') l)))
         (concat (map (fun i => map (a i) l') l)) =
  vsum (map (fun i => vsum (map (fun j => fmul (of_Z (z i j)) (a i j)) l'))
            l).
Proof.
  unfold np_dot.
  induction l as [|i l IH]; cbn [map concat]; [reflexivity |].
  rewrite map_app, map2_app by now rewrite !length_map.
  rewrite vsum_app, vsum_cons, IH. f_equal.
  rewrite map_map. apply (np_dot_map (fun j => of_Z (z i j))).
Qed.

Lemma np_dot_ravel (n : nat) (z : nat -> nat -> Z)
  (a : nat -> nat -> float64) :
  np_dot (map of_Z (ravel (tabulate n n z))) (ravel (tabulate n n a)) =
  sum_upto n (fun i => sum_upto n (fun j => fmul (of_Z (z i j)) (a i j))).
Proof. apply np_dot_concat. Qed.

Lemma combine_app_same (A B : Type) (l1 l1' : list A) (l2 l2' : list B) :
  length l1 = length l2 ->
  combine (l1 ++ l1') (l2 ++ l2') = combine l1 l2 ++ combine l1' l2'.
Proof.
  revert l2. induction l1 as [|x l1 IH]; intros [|y l2] H; simpl in *;
    try discriminate; [reflexivity |].
  rewrite IH by lia. reflexivity.
Qed.

Lemma masked_sum_row (X : Type) (key : X -> Z) (a : X -> float64) (k : Z)
  (l : list X) :
  masked_sum (map key l) (map a l) k =
  vsum (map (fun x => if Z.eqb (key x) k then a x else fzero) l).
Proof.
  unfold masked_sum.
  induction l as [|x l IH]; cbn [map combine filter fst]; [reflexivity |].
  rewrite vsum_cons. destruct (Z.eqb (key x) k); cbn [map snd].
  - now rewrite vsum_cons, IH.
  - now rewrite IH, fadd_0_l.
Qed.

Lemma masked_sum_app (k1 k2 : list Z) (v1 v2 : array1) (k : Z) :
  length k1 = length v1 ->
  masked_sum (k1 ++ k2) (v1 ++ v2) k =
  fadd (masked_sum k1 v1 k) (masked_sum k2 v2 k).
Proof.
  intros H. unfold masked_sum.
  now rewrite combine_app_same, filter_app, map_app, vsum_app.
Qed.

Lemma masked_sum_concat (X Y : Type) (key : X -> Y -> Z)
  (a : X -> Y -> float64) (k : Z) (l' : list Y) (l : list X) :
  masked_sum (concat (map (fun i => map (key i) l') l))
             (concat (map (fun i => map (a i) l') l)) k =
  vsum (map (fun i => vsum (map (fun j =>
          if Z.eqb (key i j) k then a i j else fzero) l')) l).
Proof.
  induction l as [|i l IH]; cbn [map concat]; [reflexivity |].
  rewrite masked_sum_app by now rewrite !length_map.
  rewrite vsum_cons, IH. f_equal. apply masked_sum_row.
Qed.

Lemma masked_sum_ravel (n : nat) (key : nat -> nat -> Z)
  (a : nat -> nat -> float64) (k : Z) :
  masked_sum (ravel (tabulate n n key)) (ravel (tabulate n n a)) k =
  sum_upto n (fun i => sum_upto n (fun j =>
    if Z.eqb (key i j) k then a i j else fzero)).
Proof. apply masked_sum_concat. Qed.

(** ** The score [compute_chi_sum] *)

Lemma firstn_app_exact (A : Type) (c : nat) (l1 l2 : list A) :
  length l1 = c -> firstn c (l1 ++ l2) = l1.
Proof.
  intros <-. rewrite firstn_app, Nat.sub_diag, firstn_all. simpl.
  apply app_nil_r.
Qed.

Lemma skipn_app_exact (A : Type) (c : nat) (l1 l2 : list A) :
  length l1 = c -> skipn c (l1 ++ l2) = l2.
Proof.
  intros <-. now rewrite skipn_app, Nat.sub_diag, skipn_all.
Qed.

Lemma reshape_repeat (A : Type) (c : nat) (v : list A) :
  reshape (np_repeat v c) (length v) c = map (fun x => repeat x c) v.
Proof.
  unfold np_repeat. induction v as [|x v IH]; simpl; [reflexivity |].
  rewrite firstn_app_exact, skipn_app_exact by apply repeat_length.
  now rewrite IH.
Qed.

Lemma repeat_rows (n : nat) (f : nat -> float64) :
  reshape (np_repeat (map f (seq 0 n)) n) n n = tabulate n n (fun i _ => f i).
Proof.
  pose proof (reshape_repeat n (map f (seq 0 n))) as H.
  rewrite length_map, length_seq in H. rewrite H, map_map.
  unfold tabulate. apply map_ext. intros i.
  now rewrite map_constant, length_seq.
Qed.

Lemma get_tabulate (n : nat) (a : nat -> nat -> float64) (i j : nat) :
  i < n -> j < n -> get (tabulate n n a) i j = a i j.
Proof.
  intros Hi Hj. unfold get, tabulate.
  rewrite nth_map_seq by assumption. now rewrite nth_map_seq.
Qed.

(** What [compute_chi_sum] returns for a square matrix: the expectation of
    cell [(i, j)] is made of the total of column [i] and the total of row
    [j], and a cell whose expectation is zero counts for what the
    allocation of [np.divide] held. *)
Lemma compute_chi_sum_closed_form (out : nat -> nat -> float64) (n : nat)
  (m : array2) :
  square n m ->
  compute_chi_sum out m =
  sum_upto n (fun i => sum_upto n (fun j =>
    if fneqb (code_expectation n m i j) fzero
    then fdiv (fpow (fsub (get m i j) (code_expectation n m i j)) 2)
              (code_expectation n m i j)
    else out i j)).
Proof.
  intros Hsq. unfold code_expectation, total_sum, row_total, col_total.
  rewrite (square_tabulate Hsq) at 1.
  generalize (get m) as a. intros a. unfold compute_chi_sum.
  rewrite shape0_tabulate, shape1_tabulate_square.
  rewrite sum_axis0_tabulate, sum_axis1_tabulate, msum_tabulate.
  rewrite !repeat_rows, transpose_tabulate.
  unfold np_divide_where.
  rewrite !mmap2_tabulate, !mmap_tabulate, !mmap2_tabulate.
  rewrite !mmap_tabulate, !mmap2_tabulate.
  rewrite shape0_tabulate, shape1_tabulate_square, !mmap2_tabulate.
  rewrite msum_tabulate. reflexivity.
Qed.

Lemma square_tabulate_shape (n : nat) (a : nat -> nat -> float64) :
  square n (tabulate n n a).
Proof.
  split; [apply shape0_tabulate |]. unfold tabulate.
  apply Forall_forall. intros r Hr. apply in_map_iff in Hr.
  destruct Hr as [i [<- _]]. now rewrite length_map, length_seq.
Qed.

Lemma sum_upto_zeros (n : nat) : sum_upto n (fun _ => fzero) = fzero.
Proof. apply vsum_zeros. Qed.

Lemma sum_upto_nan (n : nat) : 0 < n -> sum_upto n (fun _ => NaN) = NaN.
Proof.
  intros Hn. destruct n as [|n]; [lia |]. unfold sum_upto.
  cbn [seq map]. now rewrite vsum_cons.
Qed.

Lemma row_total_zeros (n i : nat) :
  i < n -> row_total n (np_zeros n n) i = fzero.
Proof.
  intros Hi. unfold row_total.
  transitivity (sum_upto n (fun _ => fzero)); [| apply sum_upto_zeros].
  apply sum_upto_ext. intros j Hj. now apply get_tabulate.
Qed.

Lemma col_total_zeros (n j : nat) :
  j < n -> col_total n (np_zeros n n) j = fzero.
Proof.
  intros Hj. unfold col_total.
  transitivity (sum_upto n (fun _ => fzero)); [| apply sum_upto_zeros].
  apply sum_upto_ext. intros i Hi. now apply get_tabulate.
Qed.

Lemma total_sum_zeros (n : nat) : total_sum n (np_zeros n n) = fzero.
Proof.
  unfold total_sum.
  transitivity (sum_upto n (fun _ => fzero)); [| apply sum_upto_zeros].
  apply sum_upto_ext. intros i Hi. now apply row_total_zeros.
Qed.

Lemma fdiv_nan_r (x : float64) : fdiv x NaN = NaN.
Proof. now destruct x. Qed.

(** The score of a matrix of zeros, of any size, is [nan]. *)
Lemma compute_chi_sum_zeros_any_size (out : nat -> nat -> float64)
  (n : nat) :
  0 < n -> compute_chi_sum out (np_zeros n n) = NaN.
Proof.
  intros Hn.
  rewrite (@compute_chi_sum_closed_form out n (np_zeros n n)
             (square_tabulate_shape n _)).
  assert (E : forall i j, i < n -> j < n ->
            code_expectation n (np_zeros n n) i j = NaN).
  { intros i j Hi Hj. unfold code_expectation.
    rewrite row_total_zeros, col_total_zeros, total_sum_zeros by assumption.
    by_evaluation. }
  transitivity (sum_upto n (fun _ => NaN)); [| now apply sum_upto_nan].
  apply sum_upto_ext. intros i Hi.
  transitivity (sum_upto n (fun _ => NaN)); [| now apply sum_upto_nan].
  apply sum_upto_ext. intros j Hj. rewrite (E i j Hi Hj).
  cbn [fneqb feqb negb]. apply fdiv_nan_r.
Qed.

(** Where the score is the chi-square of the specification: on a symmetric
    matrix, when the allocation of [np.divide] held zeros. *)
Lemma compute_chi_sum_symmetric_zero_filled (n : nat) (m : array2) :
  square n m -> symmetric n m ->
  compute_chi_sum no_junk m = chi_square_in_words n m.
Proof.
  intros Hsq Hsym. rewrite (compute_chi_sum_closed_form no_junk Hsq).
  assert (E : forall i j, i < n -> j < n ->
            code_expectation n m i j = expectation n m i j).
  { intros i j Hi Hj. unfold code_expectation, expectation, row_total,
      col_total.
    f_equal. f_equal; apply sum_upto_ext; intros r Hr; now apply Hsym. }
  unfold chi_square_in_words. apply sum_upto_ext. intros i Hi.
  apply sum_upto_ext. intros j Hj. rewrite (E i j Hi Hj).
  unfold chi_term, fneqb, no_junk.
  now destruct (feqb (expectation n m i j) fzero).
Qed.

(** ** Scaling by a finite factor above zero *)

Section Scaling.

Variable q : Qc.
Hypothesis q_positive : (0 < q)%Qc.

Lemma q_not_zero : q <> 0%Qc.
Proof.
  intros E. rewrite E in q_positive.
  now apply Qclt_not_eq in q_positive.
Qed.

Lemma Qc_sgn_scaled (a : Qc) : Qc_sgn (q * a) = Qc_sgn a.
Proof.
  unfold Qc_sgn. destruct (Qc_dec 0 a) as [[H | H] | H].
  - rewrite (proj1 (Qclt_alt 0 a) H). apply Qclt_alt.
    rewrite <- (Qcmult_0_l q), (Qcmult_comm q a).
    now apply Qcmult_lt_compat_r.
  - assert (H' : (0 > a)%Qc) by exact H.
    rewrite (proj1 (Qcgt_alt 0 a) H'). apply Qcgt_alt.
    change (q * a < 0)%Qc.
    rewrite <- (Qcmult_0_l q), (Qcmult_comm q a).
    now apply Qcmult_lt_compat_r.
  - subst a. now rewrite Qcmult_0_r.
Qed.

Lemma Qc_sgn_positive : Qc_sgn q = Lt.
Proof. now apply Qclt_alt. Qed.

Lemma Qc_sgn_scaled_twice (a : Qc) : Qc_sgn (q * q * a) = Qc_sgn a.
Proof. now rewrite <- Qcmult_assoc, !Qc_sgn_scaled. Qed.

Lemma inf_signed_scaled (s : bool) (a : Qc) :
  inf_signed s (q * a) = inf_signed s a.
Proof. unfold inf_signed. now rewrite Qc_sgn_scaled. Qed.

Lemma fmul_inf_signed (s : bool) (a : Qc) :
  fmul (Fin q) (inf_signed s a) = inf_signed s a.
Proof.
  unfold inf_signed. destruct (Qc_sgn a), s; simpl; try reflexivity;
    unfold inf_signed; now rewrite Qc_sgn_positive.
Qed.

Ltac signs :=
  repeat (simpl; unfold inf_signed;
          first [ rewrite Qc_sgn_scaled_twice
                | rewrite Qc_sgn_scaled
                | rewrite Qc_sgn_positive ]);
  simpl; unfold inf_signed; try reflexivity.

Ltac sign_cases :=
  repeat match goal with
    | |- context [Qc_sgn ?z] => destruct (Qc_sgn z); signs
    end.

Lemma fmul_scale_add (x y : float64) :
  fmul (Fin q) (fadd x y) = fadd (fmul (Fin q) x) (fmul (Fin q) y).
Proof.
  destruct x as [a| | |], y as [b| | |]; signs.
  f_equal. apply Qcmult_plus_distr_r.
Qed.

Lemma fmul_scale_neg (x : float64) :
  fmul (Fin q) (fneg x) = fneg (fmul (Fin q) x).
Proof.
  destruct x as [a| | |]; signs. f_equal. ring.
Qed.

Lemma fmul_scale_sub (x y : float64) :
  fmul (Fin q) (fsub x y) = fsub (fmul (Fin q) x) (fmul (Fin q) y).
Proof. unfold fsub. now rewrite fmul_scale_add, fmul_scale_neg. Qed.

Lemma fmul_scale_zero : fmul (Fin q) fzero = fzero.
Proof. unfold fzero, of_Z. simpl. f_equal. apply Qcmult_0_r. Qed.

Lemma fmul_scale_mul (x y : float64) :
  fmul (fmul (Fin q) x) (fmul (Fin q) y) =
  fmul (Fin (q * q)) (fmul x y).
Proof.
  destruct x as [a| | |], y as [b| | |]; signs;
    try (f_equal; ring);
    sign_cases.
Qed.

Lemma feqb_scale_zero (x : float64) :
  feqb (fmul (Fin q) x) fzero = feqb x fzero.
Proof.
  destruct x as [a| | |]; signs.
  unfold fzero, of_Z. change (Q2Qc (inject_Z 0)) with 0%Qc.
  destruct (Qc_eq_dec (q * a) 0) as [E | E], (Qc_eq_dec a 0) as [E' | E'];
    try reflexivity.
  - destruct (Qcmult_integral _ _ E); [now apply q_not_zero in H | easy].
  - subst a. now rewrite Qcmult_0_r in E.
Qed.

Lemma fdiv_scale (x t : float64) :
  fdiv (fmul (Fin (q * q)) x) (fmul (Fin q) t) = fmul (Fin q) (fdiv x t).
Proof.
  pose proof q_not_zero as Hq.
  destruct x as [a| | |], t as [b| | |]; simpl.
  all: signs; sign_cases.
  all: unfold fzero, of_Z; change (Q2Qc (inject_Z 0)) with 0%Qc.
  all: repeat match goal with
         | |- context [Qc_eq_dec ?u ?v] => destruct (Qc_eq_dec u v)
         end; simpl; try reflexivity.
  all: try match goal with
         | E : (q * ?b)%Qc = 0%Qc, N : ?b <> 0%Qc |- _ =>
             exfalso; destruct (Qcmult_integral _ _ E); auto
         | E : ?b = 0%Qc, N : (q * ?b)%Qc <> 0%Qc |- _ =>
             exfalso; apply N; rewrite E; apply Qcmult_0_r
         end.
  all: f_equal; field; auto.
Qed.

Lemma vsum_scale (l : array1) :
  fmul (Fin q) (vsum l) = vsum (map (fmul (Fin q)) l).
Proof.
  induction l as [|x l IH]; cbn [map].
  - apply fmul_scale_zero.
  - now rewrite !vsum_cons, fmul_scale_add, IH.
Qed.

Lemma sum_upto_scale (n : nat) (f : nat -> float64) :
  fmul (Fin q) (sum_upto n f) = sum_upto n (fun i => fmul (Fin q) (f i)).
Proof. unfold sum_upto. now rewrite vsum_scale, map_map. Qed.

Lemma scale_tabulate (n : nat) (a : nat -> nat -> float64) :
  scale (Fin q) (tabulate n n a) =
  tabulate n n (fun i j => fmul (Fin q) (a i j)).
Proof. apply mmap_tabulate. Qed.

Lemma square_scale (n : nat) (m : array2) :
  square n m -> square n (scale (Fin q) m).
Proof.
  intros Hsq. rewrite (square_tabulate Hsq), scale_tabulate.
  apply square_tabulate_shape.
Qed.

Lemma get_scale (n : nat) (m : array2) (i j : nat) :
  square n m -> i < n -> j < n ->
  get (scale (Fin q) m) i j = fmul (Fin q) (get m i j).
Proof.
  intros Hsq Hi Hj. rewrite (square_tabulate Hsq) at 1.
  rewrite (scale_tabulate n). now apply get_tabulate.
Qed.

Lemma row_total_scale (n : nat) (m : array2) (i : nat) :
  square n m -> i < n ->
  row_total n (scale (Fin q) m) i = fmul (Fin q) (row_total n m i).
Proof.
  intros Hsq Hi. unfold row_total. rewrite sum_upto_scale.
  apply sum_upto_ext. intros j Hj. now apply (get_scale Hsq).
Qed.

Lemma col_total_scale (n : nat) (m : array2) (j : nat) :
  square n m -> j < n ->
  col_total n (scale (Fin q) m) j = fmul (Fin q) (col_total n m j).
Proof.
  intros Hsq Hj. unfold col_total. rewrite sum_upto_scale.
  apply sum_upto_ext. intros i Hi. now apply (get_scale Hsq).
Qed.

Lemma total_sum_scale (n : nat) (m : array2) :
  square n m ->
  total_sum n (scale (Fin q) m) = fmul (Fin q) (total_sum n m).
Proof.
  intros Hsq. unfold total_sum. rewrite sum_upto_scale.
  apply sum_upto_ext. intros i Hi. now apply (row_total_scale Hsq).
Qed.

Lemma code_expectation_scale (n : nat) (m : array2) (i j : nat) :
  square n m -> i < n -> j < n ->
  code_expectation n (scale (Fin q) m) i j =
  fmul (Fin q) (code_expectation n m i j).
Proof.
  intros Hsq Hi Hj. unfold code_expectation.
  rewrite (row_total_scale Hsq Hj), (col_total_scale Hsq Hi),
    (total_sum_scale Hsq).
  now rewrite fmul_scale_mul, fdiv_scale.
Qed.

(** With zeros in the allocation of [np.divide], the score of [c * m] is
    [c] times the score of [m]. *)
Lemma compute_chi_sum_homogeneous_zero_filled (n : nat) (m : array2) :
  square n m ->
  compute_chi_sum no_junk (scale (Fin q) m) =
  fmul (Fin q) (compute_chi_sum no_junk m).
Proof.
  intros Hsq.
  rewrite (compute_chi_sum_closed_form no_junk (square_scale Hsq)).
  rewrite (compute_chi_sum_closed_form no_junk Hsq).
  rewrite sum_upto_scale. apply sum_upto_ext. intros i Hi.
  rewrite sum_upto_scale. apply sum_upto_ext. intros j Hj.
  rewrite (code_expectation_scale Hsq Hi Hj), (get_scale Hsq Hi Hj).
  unfold fneqb. rewrite feqb_scale_zero.
  destruct (feqb (code_expectation n m i j) fzero); cbn [negb].
  - unfold no_junk. now rewrite fmul_scale_zero.
  - rewrite <- fmul_scale_sub. cbn [fpow].
    now rewrite fmul_scale_mul, fdiv_scale.
Qed.

End Scaling.

(** *** The claims about the score *)

Lemma square_of_Zs_2 (a b c d : Z) : square 2 (of_Zs [[a;b];[c;d]]).
Proof. split; [reflexivity | repeat constructor]. Qed.

Lemma nonneg_of_Z (z : Z) : (0 <= z)%Z -> nonneg (of_Z z).
Proof.
  intros H. unfold nonneg, of_Z.
  change (0 <= Qred (inject_Z z))%Q. rewrite Qred_correct.
  unfold Qle. simpl. lia.
Qed.

(** C1, at the matrix [[1,2],[1,2]] (square, counts, total 6): whatever the
    allocation of [np.divide] held, [compute_chi_sum] returns 3/2, while the
    sum of [(M - E)^2 / E] over the cells with [E != 0], for
    [E[i,j] = row_total[i] * col_total[j] / total_sum], is 0.  The row of
    [row_matrix] number [i] holds the total of column [i], and the column of
    [col_matrix] number [j] holds the total of row [j]: the expectation the
    source divides by is the transpose of [E]. *)
Theorem compute_chi_sum_uses_transposed_expectation :
  square 2 M12 /\ nonneg_matrix M12 /\ positive (msum M12) /\
  chi_square_in_words 2 M12 = fzero /\
  forall out, compute_chi_sum out M12 = qz 3 2.
Proof.
  split; [apply square_of_Zs_2 |].
  split; [repeat constructor; apply nonneg_of_Z; lia |].
  split; [vm_compute; reflexivity |].
  split; [by_evaluation | intros out; by_evaluation].
Qed.

(** C2, at the matrix [[2,4],[1,2]]: its rows and columns are exactly
    independent (every cell is [row_total * col_total / total], total 9), and
    [compute_chi_sum] returns 45/4, not 0. *)
Theorem compute_chi_sum_independent_not_zero :
  square 2 M21 /\ nonneg_matrix M21 /\ positive (total_sum 2 M21) /\
  independent 2 M21 /\
  forall out, compute_chi_sum out M21 = qz 45 4 /\
              compute_chi_sum out M21 <> fzero.
Proof.
  split; [apply square_of_Zs_2 |].
  split; [repeat constructor; apply nonneg_of_Z; lia |].
  split; [vm_compute; reflexivity |].
  split.
  - intros i j Hi Hj.
    destruct i as [|[|i]]; [| |lia]; (destruct j as [|[|j]]; [| |lia]);
      by_evaluation.
  - intros out; split; by_evaluation.
Qed.

(** C3, for the matrix of zeros of any size n > 0: the division by the
    total, 0/0, makes every expectation [nan]; [nan != 0] holds, so no cell
    is skipped, and the score is [nan], not 0, whatever the allocation of
    [np.divide] held. *)
Theorem compute_chi_sum_zeros_is_nan (out : nat -> nat -> float64)
  (n : nat) :
  0 < n ->
  compute_chi_sum out (np_zeros n n) = NaN /\
  compute_chi_sum out (np_zeros n n) <> fzero.
Proof.
  intros Hn. rewrite (compute_chi_sum_zeros_any_size out Hn).
  split; [reflexivity | discriminate].
Qed.

Lemma compute_chi_sum_zeros_is_nan_witness :
  0 < 2 /\ compute_chi_sum no_junk (of_Zs [[0;0];[0;0]]%Z) = NaN.
Proof.
  split; [lia |].
  exact (proj1 (@compute_chi_sum_zeros_is_nan no_junk 2 (Nat.lt_0_succ 1))).
Defined.

(** ** The descriptors [create_haralick] *)

(** ** [create_haralick] and transposition *)

Section Transposition.

Variable np_sqrt : float64 -> float64.
Variable n : nat.
Variable a : nat -> nat -> float64.

Local Abbreviation given := (given n a).
Local Abbreviation flipped := (flipped n a).

Lemma level_given : level given = n.
Proof. apply shape0_tabulate. Qed.

Lemma level_flipped : level flipped = n.
Proof. apply shape0_tabulate. Qed.

Lemma length_given : length given = n.
Proof. apply shape0_tabulate. Qed.

Lemma length_flipped : length flipped = n.
Proof. apply shape0_tabulate. Qed.

(** A sum weighted by a weight symmetric in the two indices. *)
Lemma weighted_sum_flipped (w : nat -> nat -> float64) :
(forall i j, w i j = w j i) ->
sum_axes01 (mmap2 fmul flipped (tabulate n n w)) =
sum_axes01 (mmap2 fmul given (tabulate n n w)).
Proof.
intros Hw. unfold flipped, given.
rewrite !mmap2_tabulate, !sum_axes01_tabulate, sum_upto_swap.
apply sum_upto_ext. intros i _. apply sum_upto_ext. intros j _.
now rewrite (Hw j i).
Qed.

Lemma homo_flipped : homo flipped = homo given.
Proof.
unfold homo, homo_weight, I_minus_J.
rewrite level_flipped, level_given, mmap_tabulate.
apply weighted_sum_flipped. intros i j. do 3 f_equal. ring.
Qed.

Lemma contrast_flipped : contrast flipped = contrast given.
Proof.
unfold contrast, con_weight, I_minus_J.
rewrite level_flipped, level_given, mmap_tabulate.
apply weighted_sum_flipped. intros i j. f_equal. ring.
Qed.

Lemma asm_flipped : asm flipped = asm given.
Proof.
unfold asm, flipped, given.
now rewrite !mmap_tabulate, !sum_axes01_tabulate, sum_upto_swap.
Qed.

Lemma msum_flipped : msum flipped = msum given.
Proof.
unfold flipped, given. now rewrite !msum_tabulate, sum_upto_swap.
Qed.

Lemma px_flipped : px flipped = py given.
Proof.
unfold px, py, p. rewrite msum_flipped. generalize (msum given) as t.
intros t. unfold flipped, given.
now rewrite !mmap_tabulate, sum_axis0_tabulate, sum_axis1_tabulate.
Qed.

Lemma py_flipped : py flipped = px given.
Proof.
unfold px, py, p. rewrite msum_flipped. generalize (msum given) as t.
intros t. unfold flipped, given.
now rewrite !mmap_tabulate, sum_axis0_tabulate, sum_axis1_tabulate.
Qed.

Lemma k_flipped : k flipped = k given.
Proof. unfold k. now rewrite length_flipped, length_given. Qed.

Lemma tk_flipped : tk flipped = tk given.
Proof. unfold tk. now rewrite length_flipped, length_given. Qed.

Lemma ux_flipped : ux flipped = uy given.
Proof. unfold ux, uy. now rewrite px_flipped, k_flipped. Qed.

Lemma uy_flipped : uy flipped = ux given.
Proof. unfold ux, uy. now rewrite py_flipped, k_flipped. Qed.

Lemma vx_flipped : vx flipped = vy given.
Proof. unfold vx, vy. now rewrite px_flipped, k_flipped, ux_flipped. Qed.

Lemma vy_flipped : vy flipped = vx given.
Proof. unfold vx, vy. now rewrite py_flipped, k_flipped, uy_flipped. Qed.

Lemma sx_flipped : sx np_sqrt flipped = sy np_sqrt given.
Proof. unfold sx, sy. now rewrite vx_flipped. Qed.

Lemma sy_flipped : sy np_sqrt flipped = sx np_sqrt given.
Proof. unfold sx, sy. now rewrite vy_flipped. Qed.

Lemma ij_dot_flipped :
np_dot (map of_Z (ravel (ij flipped))) (pravel flipped) =
np_dot (map of_Z (ravel (ij given))) (pravel given).
Proof.
unfold ij, I_times_J, pravel, p.
rewrite level_flipped, level_given, msum_flipped.
generalize (msum given) as t. intros t. unfold flipped, given.
rewrite !mmap_tabulate, !np_dot_ravel, sum_upto_swap.
apply sum_upto_ext. intros i _. apply sum_upto_ext. intros j _.
do 2 f_equal. ring.
Qed.

Lemma corr_flipped : corr np_sqrt flipped = corr np_sqrt given.
Proof.
unfold corr.
rewrite sx_flipped, sy_flipped, ux_flipped, uy_flipped, ij_dot_flipped.
rewrite orb_comm.
destruct (feqb (sx np_sqrt given) fzero) eqn:Ex;
  destruct (feqb (sy np_sqrt given) fzero) eqn:Ey; cbn [orb];
  try reflexivity.
now rewrite (fdiv_swap _ _ Ey Ex), (fmul_comm (uy given)).
Qed.

Lemma px_plus_y_flipped : px_plus_y flipped = px_plus_y given.
Proof.
unfold px_plus_y, idx1, I_plus_J. rewrite level_flipped, level_given.
apply map_ext. intros z. unfold flipped, given.
rewrite !masked_sum_ravel, sum_upto_swap.
apply sum_upto_ext. intros i _. apply sum_upto_ext. intros j _.
now rewrite Z.add_comm.
Qed.

Lemma mean_flipped : mean flipped = mean given.
Proof. unfold mean. now rewrite tk_flipped, px_plus_y_flipped. Qed.

Lemma stdev_flipped : stdev np_sqrt flipped = stdev np_sqrt given.
Proof.
unfold stdev. now rewrite tk_flipped, px_plus_y_flipped, mean_flipped.
Qed.

Lemma centred_flipped : centred flipped = centred given.
Proof.
unfold centred, I_plus_J.
rewrite level_flipped, level_given, ux_flipped, uy_flipped.
rewrite !mmap_tabulate. apply tabulate_ext. intros i j _ _.
apply fsub_swap.
Qed.

Lemma centred_symmetric (m : array2) :
centred m =
tabulate (level m) (level m) (fun i j =>
  fsub (fsub (of_Z (Z.of_nat i + Z.of_nat j)) (ux m)) (uy m)).
Proof. unfold centred, I_plus_J. apply mmap_tabulate. Qed.

Lemma cls_shade_flipped : cls_shade flipped = cls_shade given.
Proof.
unfold cls_shade, shade_weight.
rewrite centred_flipped, centred_symmetric, level_given, mmap_tabulate.
apply weighted_sum_flipped. intros i j. now rewrite Z.add_comm.
Qed.

Lemma cls_prom_flipped : cls_prom flipped = cls_prom given.
Proof.
unfold cls_prom, prom_weight.
rewrite centred_flipped, centred_symmetric, level_given, mmap_tabulate.
apply weighted_sum_flipped. intros i j. now rewrite Z.add_comm.
Qed.

Lemma create_haralick_flipped :
create_haralick np_sqrt flipped = create_haralick np_sqrt given.
Proof.
unfold create_haralick, energy.
now rewrite homo_flipped, asm_flipped, contrast_flipped, corr_flipped,
  mean_flipped, stdev_flipped, cls_shade_flipped, cls_prom_flipped.
Qed.

End Transposition.

(** Over the exact arithmetic: for a square matrix, the descriptors of
    the transpose are the descriptors of the matrix, all 9 of them
    (whatever the total of the matrix, and whatever [np.sqrt] returns). *)
Lemma create_haralick_transpose (np_sqrt : float64 -> float64) (n : nat)
  (m : array2) :
  square n m ->
  create_haralick np_sqrt (transpose m) = create_haralick np_sqrt m.
Proof.
  intros Hsq. rewrite (square_tabulate Hsq), transpose_tabulate.
  apply create_haralick_flipped.
Qed.

Section BatchFacts.

Variable image : Type.
Variable greycomatrix :
  image -> list Z -> list Z -> bool -> bool -> array4.
Variable np_sqrt : float64 -> float64.
Variable uninit : nat -> nat -> nat -> nat -> nat -> float64.
Variable distances angles : list Z.

Hypothesis distances_not_empty : distances <> [].
Hypothesis angles_not_empty : angles <> [].

Let D := length distances.
Let A := length angles.

Local Abbreviation score := (score greycomatrix uninit distances angles).
Local Abbreviation score_grid :=
  (score_grid greycomatrix uninit distances angles).
Local Abbreviation chosen_offset :=
  (chosen_offset greycomatrix uninit distances angles).
Local Abbreviation optimal_of :=
  (optimal_of greycomatrix uninit distances angles).
Local Abbreviation haralick_of :=
  (haralick_of greycomatrix np_sqrt uninit distances angles).
Local Abbreviation step := (step greycomatrix uninit distances angles).
Local Abbreviation partial_grid :=
  (partial_grid greycomatrix uninit distances angles).
Local Abbreviation scan_trace :=
  (scan_trace greycomatrix uninit distances angles).
Local Abbreviation batch_trace :=
  (batch_trace greycomatrix uninit distances angles).

Lemma step_chisum (k : nat) (img : image) (st : batch_state)
  (c : nat * nat) :
  chisum (step k img st c) =
  set2 (chisum st) (fst c) (snd c) (score k img (fst c) (snd c)).
Proof. reflexivity. Qed.

Lemma step_inputs (k : nat) (img : image) (st : batch_state)
  (c : nat * nat) :
  inputs_list (step k img st c) =
  inputs_list st ++
  [offset_at distances angles (best_of (chisum (step k img st c)))].
Proof. reflexivity. Qed.

Lemma step_max_chi (k : nat) (img : image) (st : batch_state)
  (c : nat * nat) :
  max_chi (step k img st c) = Some (best_of (chisum (step k img st c))).
Proof. reflexivity. Qed.

Lemma step_keeps (k : nat) (img : image) (st : batch_state)
  (c : nat * nat) :
  matrix_list (step k img st c) = matrix_list st /\
  haralick_list (step k img st c) = haralick_list st.
Proof. split; reflexivity. Qed.

Lemma D_positive : 0 < D.
Proof. subst D. destruct distances; [congruence | simpl; lia]. Qed.

Lemma A_positive : 0 < A.
Proof. subst A. destruct angles; [congruence | simpl; lia]. Qed.

Lemma perms_not_empty : perms distances angles <> [].
Proof.
  unfold perms, product_range. intros E.
  apply (f_equal (@length _)) in E. rewrite length_prod, !length_seq in E.
  pose proof D_positive. pose proof A_positive. simpl in E. subst D A. nia.
Qed.

Lemma length_perms : length (perms distances angles) = D * A.
Proof.
  unfold perms, product_range. now rewrite length_prod, !length_seq.
Qed.

(** After the candidates of [l] are scored the grid holds their scores,
    and still its former content in the other cells. *)
Lemma scan_grid (k : nat) (img : image) (l : list (nat * nat)) :
  forall (st : batch_state) (f : nat -> nat -> float64),
  (forall c, In c l -> fst c < D /\ snd c < A) ->
  chisum st = tabulate D A f ->
  chisum (fold_left (step k img) l st) =
  tabulate D A (fun i j =>
    if scored l i j then score k img i j else f i j).
Proof.
  induction l as [|c l IH]; intros st f Hin Hst; simpl.
  - exact Hst.
  - destruct (Hin c (or_introl eq_refl)) as [Hd Ha].
    rewrite (IH _ (fun i j =>
               if Nat.eqb i (fst c) && Nat.eqb j (snd c)
               then score k img (fst c) (snd c) else f i j)).
    + apply tabulate_ext. intros i j _ _.
      destruct (Nat.eqb_spec i (fst c)) as [-> | Hi]; simpl;
        [destruct (Nat.eqb_spec j (snd c)) as [-> | Hj]; simpl |];
        unfold scored; simpl;
        try rewrite Nat.eqb_refl; simpl;
        try (rewrite (proj2 (Nat.eqb_neq _ _) Hj), andb_false_r); simpl;
        try (rewrite (proj2 (Nat.eqb_neq _ _) Hi)); simpl;
        destruct (existsb _ l); reflexivity.
    + intros c' Hc'. apply Hin. now right.
    + rewrite step_chisum, Hst. now rewrite set2_tabulate.
Qed.

Lemma full_scan_grid (k : nat) (img : image) (st : batch_state)
  (f : nat -> nat -> float64) :
  chisum st = tabulate D A f ->
  chisum (fold_left (step k img) (perms distances angles) st) =
  score_grid k img.
Proof.
  intros Hst. rewrite (@scan_grid k img _ st f); [| | exact Hst].
  - apply tabulate_ext. intros i j Hi Hj.
    replace (scored _ i j) with true; [reflexivity |].
    symmetry. apply existsb_exists. exists (i, j). simpl.
    rewrite !Nat.eqb_refl. split; [| reflexivity].
    apply in_prod; apply in_seq; subst D A; lia.
  - intros [d a] Hc. apply in_prod_iff in Hc.
    rewrite !in_seq in Hc. simpl. subst D A. lia.
Qed.

Lemma scan_keeps (k : nat) (img : image) (l : list (nat * nat)) :
  forall st,
  matrix_list (fold_left (step k img) l st) = matrix_list st /\
  haralick_list (fold_left (step k img) l st) = haralick_list st.
Proof.
  induction l as [|c l IH]; intros st; simpl; [auto |].
  destruct (IH (step k img st c)) as [-> ->]. apply step_keeps.
Qed.

Lemma scan_inputs (k : nat) (img : image) (f : nat -> nat -> float64)
  (st : batch_state) (l : list (nat * nat)) :
  (forall c, In c l -> fst c < D /\ snd c < A) ->
  chisum st = tabulate D A f ->
  inputs_list (fold_left (step k img) l st) =
  inputs_list st ++
  map (fun t => offset_at distances angles
         (best_of (tabulate D A (fun i j =>
            if scored (firstn (S t) l) i j
            then score k img i j else f i j))))
      (seq 0 (length l)).
Proof.
  induction l as [|c l IH] using rev_ind; intros Hin Hst.
  - simpl. now rewrite app_nil_r.
  - assert (Hl : forall c', In c' l -> fst c' < D /\ snd c' < A).
    { intros c' Hc'. apply Hin, in_or_app. now left. }
    rewrite fold_left_app. cbn [fold_left]. rewrite step_inputs.
    rewrite (IH Hl Hst), <- app_assoc. f_equal.
    rewrite length_app. cbn [length]. rewrite Nat.add_1_r, seq_S, map_app.
    cbn [map Nat.add]. apply (f_equal2 (@app _)).
    + apply map_ext_in. intros t Ht. apply in_seq in Ht.
      rewrite firstn_app. replace (S t - length l) with 0 by lia.
      simpl. now rewrite app_nil_r.
    + f_equal. f_equal. f_equal.
      pose proof (@scan_grid k img (l ++ [c]) st f Hin Hst) as G.
      rewrite fold_left_app in G. cbn [fold_left] in G. rewrite G.
      rewrite firstn_all2 by (rewrite length_app; simpl; lia).
      reflexivity.
Qed.

Lemma scan_max_chi (k : nat) (img : image) (st : batch_state)
  (l : list (nat * nat)) :
  l <> [] ->
  max_chi (fold_left (step k img) l st) =
  Some (best_of (chisum (fold_left (step k img) l st))).
Proof.
  intros Hl. destruct (exists_last Hl) as [l' [c ->]].
  rewrite fold_left_app. cbn [fold_left]. apply step_max_chi.
Qed.

Lemma perms_in_range :
  forall c, In c (perms distances angles) -> fst c < D /\ snd c < A.
Proof.
  intros [d a] Hc. apply in_prod_iff in Hc.
  rewrite !in_seq in Hc. simpl. subst D A. lia.
Qed.

Lemma partial_grid_full (f : nat -> nat -> float64) (k : nat)
  (img : image) :
  partial_grid f k img (D * A) = score_grid k img.
Proof.
  unfold partial_grid, score_grid.
  rewrite firstn_all2 by (rewrite length_perms; lia).
  apply tabulate_ext. intros i j Hi Hj.
  replace (scored _ i j) with true; [reflexivity |].
  symmetry. apply existsb_exists. exists (i, j). simpl.
  rewrite !Nat.eqb_refl. split; [| reflexivity].
  apply in_prod; apply in_seq; lia.
Qed.

(** One round of the outer loop. *)
Lemma process_image_eq (k : nat) (img : image) (st : batch_state)
  (f : nat -> nat -> float64) :
  chisum st = tabulate D A f ->
  process_image greycomatrix np_sqrt uninit distances angles k img st =
  Some (mk_state (matrix_list st ++ [optimal_of k img])
                 (inputs_list st ++ scan_trace f k img)
                 (haralick_list st ++ [haralick_of k img])
                 (score_grid k img)
                 (Some (best_of (score_grid k img)))).
Proof.
  intros Hst. unfold process_image. fold (step k img).
  rewrite (@scan_max_chi k img st _ perms_not_empty).
  rewrite (@full_scan_grid k img st f Hst).
  destruct (scan_keeps k img (perms distances angles) st) as [-> ->].
  rewrite (@scan_inputs k img f st _ perms_in_range Hst), length_perms.
  reflexivity.
Qed.

(** The outer loop. *)
Lemma process_images_eq (image_list : list image) :
  forall (k : nat) (st : batch_state) (f : nat -> nat -> float64),
  chisum st = tabulate D A f ->
  exists st',
  process_images greycomatrix np_sqrt uninit distances angles k
    image_list st = Some st' /\
  matrix_list st' = matrix_list st ++ map_from optimal_of k image_list /\
  inputs_list st' = inputs_list st ++ batch_trace f k image_list /\
  haralick_list st' =
    haralick_list st ++ map_from haralick_of k image_list.
Proof.
  induction image_list as [|img rest IH]; intros k st f Hst; simpl.
  - exists st. now rewrite !app_nil_r.
  - rewrite (@process_image_eq k img st f Hst).
    destruct (IH (S k) (mk_state (matrix_list st ++ [optimal_of k img])
                 (inputs_list st ++ scan_trace f k img)
                 (haralick_list st ++ [haralick_of k img])
                 (score_grid k img)
                 (Some (best_of (score_grid k img))))
                (score k img) eq_refl) as [st' [-> [Hm [Hi Hh]]]].
    exists st'. simpl in Hm, Hi, Hh.
    rewrite Hm, Hi, Hh, <- !app_assoc. auto.
Qed.

(** [create_matrix_list] as a function of its arguments: one matrix and
    one descriptor vector per image, and the running choices of every
    scan, each scan starting over the grid the one before left. *)
Lemma create_matrix_list_eq (image_list : list image) :
  create_matrix_list greycomatrix np_sqrt uninit distances angles
    image_list =
  Some (map_from optimal_of 0 image_list,
        batch_trace (fun _ _ => fzero) 0 image_list,
        map_from haralick_of 0 image_list).
Proof.
  unfold create_matrix_list.
  destruct (@process_images_eq image_list 0
              (initial_state distances angles) (fun _ _ => fzero) eq_refl)
    as [st' [-> [Hm [Hi Hh]]]].
  simpl in Hm, Hi, Hh. now rewrite Hm, Hi, Hh.
Qed.

Lemma length_scan_trace (f : nat -> nat -> float64) (k : nat)
  (img : image) : length (scan_trace f k img) = D * A.
Proof. unfold scan_trace. now rewrite length_map, length_seq. Qed.

Lemma length_batch_trace (image_list : list image) :
  forall f k,
  length (batch_trace f k image_list) = length image_list * (D * A).
Proof.
  induction image_list as [|img rest IH]; intros f k; simpl;
    [reflexivity |].
  now rewrite length_app, length_scan_trace, IH.
Qed.

Lemma DA_positive : 0 < D * A.
Proof. pose proof D_positive. pose proof A_positive. nia. Qed.

(** The last offset of a scan is the chosen one. *)
Lemma scan_trace_last (f : nat -> nat -> float64) (k : nat)
  (img : image) :
  nth_error (scan_trace f k img) (D * A - 1) = Some (chosen_offset k img).
Proof.
  pose proof DA_positive as HDA. unfold scan_trace.
  rewrite nth_error_map, nth_error_nth' with (d := 0)
    by (rewrite length_seq; lia).
  rewrite seq_nth by lia. simpl.
  replace (S (D * A - 1)) with (D * A) by lia.
  now rewrite partial_grid_full.
Qed.

Lemma batch_trace_last (image_list : list image) :
  forall f k j img,
  nth_error image_list j = Some img ->
  nth_error (batch_trace f k image_list) (S j * (D * A) - 1) =
  Some (chosen_offset (k + j) img).
Proof.
  pose proof DA_positive as HDA.
  induction image_list as [|x rest IH]; intros f k j img Hj;
    destruct j as [|j]; simpl in Hj; try discriminate.
  - injection Hj as ->. cbn [batch_trace].
    rewrite nth_error_app1 by (rewrite length_scan_trace; lia).
    replace (1 * (D * A) - 1) with (D * A - 1) by lia.
    rewrite Nat.add_0_r. apply scan_trace_last.
  - cbn [batch_trace].
    rewrite nth_error_app2 by (rewrite length_scan_trace; nia).
    rewrite length_scan_trace.
    replace (S (S j) * (D * A) - 1 - D * A) with (S j * (D * A) - 1)
      by nia.
    rewrite (IH _ (S k) j img Hj). do 2 f_equal. lia.
Qed.

(** When the candidates of an image all score the same, the first one is
    chosen. *)
Lemma chosen_offset_tie (k : nat) (img : image) (s : float64) :
  (forall d a, d < D -> a < A -> score k img d a = s) ->
  chosen_offset k img = (nth 0 distances 0%Z, nth 0 angles 0%Z).
Proof.
  intros Htie. unfold chosen_offset, score_grid.
  rewrite (@tabulate_ext _ (length distances) (length angles)
             (score k img) (fun _ _ => s) Htie).
  unfold best_of. rewrite np_argmax_constant. unfold unravel_index.
  rewrite shape1_tabulate by apply D_positive. simpl.
  now rewrite Nat.Div0.div_0_l, Nat.Div0.mod_0_l.
Qed.

End BatchFacts.

(** ** The batch [create_matrix_list] *)



(** C8: when the candidates of an image all score the same, the offset its
    matrix is built from, the last one appended for it, is
    [(distances[0], angles[0])]. *)
Theorem create_matrix_list_tie_break (image : Type)
  (greycomatrix : image -> list Z -> list Z -> bool -> bool -> array4)
  (np_sqrt : float64 -> float64)
  (uninit : nat -> nat -> nat -> nat -> nat -> float64)
  (distances angles : list Z) (image_list : list image)
  (k : nat) (img : image) (s : float64) :
  distances <> [] -> angles <> [] ->
  nth_error image_list k = Some img ->
  (forall d a, d < length distances -> a < length angles ->
     score greycomatrix uninit distances angles k img d a = s) ->
  exists ml il hl,
    create_matrix_list greycomatrix np_sqrt uninit distances angles
      image_list = Some (ml, il, hl) /\
    nth_error il (S k * (length distances * length angles) - 1) =
      Some (nth 0 distances 0%Z, nth 0 angles 0%Z) /\
    nth_error ml k =
      Some (create_matrix greycomatrix img (Some [nth 0 distances 0%Z])
              (Some [nth 0 angles 0%Z]) false true).
Proof.
  intros HD HA Hk Htie.
  pose proof (@chosen_offset_tie _ greycomatrix uninit _ _ HD k img s Htie)
    as Hc.
  eexists _, _, _. split; [apply create_matrix_list_eq; assumption |].
  split.
  - rewrite (batch_trace_last greycomatrix uninit HD HA image_list _ 0 k Hk).
    simpl. now rewrite Hc.
  - rewrite (nth_error_map_from _ image_list 0 k Hk). simpl.
    unfold optimal_of. now rewrite Hc.
Qed.

Lemma create_matrix_list_tie_break_witness :
  exists ml il hl,
    create_matrix_list (row_glcm 2) sqrt_down zero_filled [1;3]%Z [0;90]%Z
      [stripes; flat] = Some (ml, il, hl) /\
    nth_error il 7 = Some (1%Z, 0%Z).
Proof.
  destruct (@create_matrix_list_tie_break _ (row_glcm 2) sqrt_down
              zero_filled [1;3]%Z [0;90]%Z [stripes; flat] 1 flat fzero)
    as (ml & il & hl & H & Hi & _).
  - discriminate.
  - discriminate.
  - reflexivity.
  - intros d a Hd Ha.
    destruct d as [|[|d]]; [| |simpl in Hd; lia];
      (destruct a as [|[|a]]; [| |simpl in Ha; lia]); by_evaluation.
  - exists ml, il, hl. split; assumption.
Defined.

(** C5 fails: the score grid is allocated once, before the loop over the
    images, and the scan of an image starts over the scores of the image
    before, although the comment of the loop says that the best combination
    is stored.  With distances [1, 2] and angle 0, the offsets appended for the
    image [checks] are (1,0), (1,0) when it is alone in the batch, and
    (2,0), (1,0) when [stripes] comes before it. *)
Lemma create_matrix_list_offsets_depend_on_previous_image :
  offsets_of (create_matrix_list (row_glcm 2) sqrt_down zero_filled
                [1;2]%Z [0]%Z [checks]) =
    Some [(1, 0); (1, 0)]%Z /\
  offsets_of (create_matrix_list (row_glcm 2) sqrt_down zero_filled
                [1;2]%Z [0]%Z [stripes; checks]) =
    Some [(1, 0); (2, 0); (2, 0); (1, 0)]%Z.
Proof. split; vm_compute; reflexivity. Qed.

(** The matrix, the descriptor vector and the last offset appended for
    the image at position [k] of a batch are those of the batch made of
    that image alone, when the allocations of [np.divide] hold the same
    content in the two runs. *)
Theorem create_matrix_list_choice_independent (image : Type)
  (greycomatrix : image -> list Z -> list Z -> bool -> bool -> array4)
  (np_sqrt : float64 -> float64)
  (uninit : nat -> nat -> nat -> nat -> nat -> float64)
  (distances angles : list Z) (image_list : list image)
  (k : nat) (img : image) :
  distances <> [] -> angles <> [] ->
  nth_error image_list k = Some img ->
  exists ml il hl ml1 il1 hl1 optimal_matrix offset haralick,
    create_matrix_list greycomatrix np_sqrt uninit distances angles
      image_list = Some (ml, il, hl) /\
    create_matrix_list greycomatrix np_sqrt (fun _ => uninit k)
      distances angles [img] = Some (ml1, il1, hl1) /\
    nth_error ml k = Some optimal_matrix /\
    nth_error ml1 0 = Some optimal_matrix /\
    nth_error hl k = Some haralick /\
    nth_error hl1 0 = Some haralick /\
    nth_error il (S k * (length distances * length angles) - 1) =
      Some offset /\
    nth_error il1 (length distances * length angles - 1) = Some offset.
Proof.
  intros HD HA Hk.
  exists (map_from (optimal_of greycomatrix uninit distances angles) 0
            image_list),
    (batch_trace greycomatrix uninit distances angles (fun _ _ => fzero) 0
       image_list),
    (map_from (haralick_of greycomatrix np_sqrt uninit distances angles) 0
       image_list).
  eexists _, _, _.
  exists (optimal_of greycomatrix uninit distances angles k img),
    (chosen_offset greycomatrix uninit distances angles k img),
    (haralick_of greycomatrix np_sqrt uninit distances angles k img).
  split; [apply create_matrix_list_eq; assumption |].
  split; [apply create_matrix_list_eq; assumption |].
  split; [exact (nth_error_map_from _ image_list 0 k Hk) |].
  split; [reflexivity |].
  split; [exact (nth_error_map_from _ image_list 0 k Hk) |].
  split; [reflexivity |].
  split.
  - exact (batch_trace_last greycomatrix uninit HD HA image_list _ 0 k Hk).
  - pose proof (@batch_trace_last _ greycomatrix (fun _ => uninit k)
                  distances angles HD HA [img] (fun _ _ => fzero) 0 0 img
                  eq_refl) as H.
    replace (1 * (length distances * length angles) - 1)
      with (length distances * length angles - 1) in H by lia.
    exact H.
Qed.

Lemma create_matrix_list_choice_independent_witness :
  exists ml il hl ml1 il1 hl1 optimal_matrix offset,
    create_matrix_list (row_glcm 2) sqrt_down zero_filled [1;2]%Z [0]%Z
      [stripes; checks] = Some (ml, il, hl) /\
    create_matrix_list (row_glcm 2) sqrt_down (fun _ => zero_filled 1)
      [1;2]%Z [0]%Z [checks] = Some (ml1, il1, hl1) /\
    nth_error ml 1 = Some optimal_matrix /\
    nth_error ml1 0 = Some optimal_matrix /\
    nth_error il 3 = Some offset /\
    nth_error il1 1 = Some offset.
Proof.
  destruct (@create_matrix_list_choice_independent _ (row_glcm 2) sqrt_down
              zero_filled [1;2]%Z [0]%Z [stripes; checks] 1 checks)
    as (ml & il & hl & ml1 & il1 & hl1 & om & off & har
        & H & H' & H1 & H2 & _ & _ & H3 & H4);
    [discriminate | discriminate | reflexivity |].
  exists ml, il, hl, ml1, il1, hl1, om, off. repeat split; assumption.
Defined.

(** * Further results *)

(** ** [np.argmax] *)

Lemma fleb_refl (x : float64) : is_nan x = false -> fleb x x = true.
Proof.
  destruct x as [q| | |]; simpl; try reflexivity; try discriminate.
  intros _. now rewrite (proj1 (Qceq_alt q q) eq_refl).
Qed.

Lemma fleb_total (x y : float64) :
  is_nan x = false -> is_nan y = false -> fleb x y = false ->
  fleb y x = true.
Proof.
  destruct x as [a| | |], y as [b| | |]; simpl; try reflexivity;
    try discriminate.
  intros _ _. destruct (a ?= b)%Qc eqn:E; try discriminate. intros _.
  apply Qcgt_alt in E. assert (H : (b < a)%Qc) by exact E.
  now rewrite (proj1 (Qclt_alt b a) H).
Qed.

Lemma fleb_Fin (a b : Qc) : fleb (Fin a) (Fin b) = true <-> (a <= b)%Qc.
Proof.
  unfold fleb. rewrite Qcle_alt. destruct (a ?= b)%Qc; split; intros H;
    try reflexivity; try discriminate; try (now elim H).
Qed.

Lemma fleb_trans (x y z : float64) :
  fleb x y = true -> fleb y z = true -> fleb x z = true.
Proof.
  destruct x as [a| | |], y as [b| | |], z as [c| | |];
    try (simpl; try reflexivity; discriminate); try reflexivity.
  rewrite !fleb_Fin. apply Qcle_trans.
Qed.

(** The strict order that goes with [fleb] away from [nan]. *)
Lemma fleb_false_trans (x y z : float64) :
  is_nan x = false -> is_nan y = false -> is_nan z = false ->
  fleb x y = false -> fleb z y = true -> fleb x z = false.
Proof.
  intros Nx Ny Nz H1 H2. destruct (fleb x z) eqn:E; [| reflexivity].
  now rewrite (fleb_trans _ _ _ E H2) in H1.
Qed.

(** The scan of [np.argmax], from a state reached on the cells [pre]. *)
Lemma argmax_from_spec (l pre : array1) (mi : nat) :
  mi < length pre ->
  no_nan (pre ++ l) ->
  (forall j, j < length pre ->
     fleb (nth j pre NaN) (nth mi pre NaN) = true) ->
  (forall j, j < mi -> fleb (nth mi pre NaN) (nth j pre NaN) = false) ->
  let r := argmax_from (nth mi pre NaN) mi (length pre) l in
  r < length (pre ++ l) /\
  (forall j, j < length (pre ++ l) ->
     fleb (nth j (pre ++ l) NaN) (nth r (pre ++ l) NaN) = true) /\
  (forall j, j < r ->
     fleb (nth r (pre ++ l) NaN) (nth j (pre ++ l) NaN) = false).
Proof.
  revert pre mi. induction l as [|x l IH]; intros pre mi Hmi Hnan Hmax Hfirst.
  - cbn [argmax_from]. rewrite app_nil_r. auto.
  - cbn [argmax_from].
    assert (Nmi : is_nan (nth mi pre NaN) = false).
    { specialize (Hnan mi). rewrite app_nth1 in Hnan by lia.
      apply Hnan. rewrite length_app. lia. }
    assert (Nx : is_nan x = false).
    { specialize (Hnan (length pre)).
      rewrite app_nth2, Nat.sub_diag in Hnan by lia.
      apply Hnan. rewrite length_app. simpl. lia. }
    assert (Npre : forall j, j < length pre -> is_nan (nth j pre NaN) = false).
    { intros j Hj. specialize (Hnan j). rewrite app_nth1 in Hnan by lia.
      apply Hnan. rewrite length_app. lia. }
    rewrite Nmi.
    assert (Eapp : pre ++ x :: l = (pre ++ [x]) ++ l)
      by now rewrite <- app_assoc.
    assert (Elen : S (length pre) = length (pre ++ [x]))
      by (rewrite length_app; simpl; lia).
    assert (Emi : nth mi (pre ++ [x]) NaN = nth mi pre NaN)
      by (apply app_nth1; lia).
    assert (Elast : nth (length pre) (pre ++ [x]) NaN = x)
      by now rewrite app_nth2, Nat.sub_diag by lia.
    rewrite Eapp in *.
    destruct (fleb x (nth mi pre NaN)) eqn:Ex.
    + (* the running maximum stays *)
      pose proof (IH (pre ++ [x]) mi) as IH'.
      rewrite Emi, <- Elen in IH'. apply IH'; clear IH'.
      * lia.
      * exact Hnan.
      * intros j Hj.
        destruct (Nat.eq_dec j (length pre)) as [-> | Hne].
        -- now rewrite Elast.
        -- rewrite app_nth1 by lia. apply Hmax. lia.
      * intros j Hj. rewrite app_nth1 by lia. now apply Hfirst.
    + (* the running maximum moves to [x] *)
      pose proof (IH (pre ++ [x]) (length pre)) as IH'.
      rewrite Elast, <- Elen in IH'. apply IH'; clear IH'.
      * lia.
      * exact Hnan.
      * intros j Hj.
        destruct (Nat.eq_dec j (length pre)) as [-> | Hne].
        -- rewrite Elast. now apply fleb_refl.
        -- rewrite app_nth1 by lia.
           apply fleb_trans with (y := nth mi pre NaN);
             [apply Hmax; lia | now apply fleb_total].
      * intros j Hj. rewrite app_nth1 by lia.
        apply fleb_false_trans with (y := nth mi pre NaN); auto.
Qed.

Lemma np_argmax_spec (l : array1) :
  l <> [] -> no_nan l ->
  np_argmax l < length l /\
  (forall j, j < length l ->
     fleb (nth j l NaN) (nth (np_argmax l) l NaN) = true) /\
  (forall j, j < np_argmax l ->
     fleb (nth (np_argmax l) l NaN) (nth j l NaN) = false).
Proof.
  destruct l as [|x l]; [congruence |]. intros _ Hnan.
  assert (Nx : is_nan x = false) by (apply (Hnan 0); simpl; lia).
  apply (@argmax_from_spec l [x] 0).
  - simpl. lia.
  - exact Hnan.
  - intros j Hj. simpl in Hj. replace j with 0 by lia. now apply fleb_refl.
  - intros j Hj. lia.
Qed.

Lemma argmax_from_lt (l : array1) :
  forall mp mi i, mi < i -> argmax_from mp mi i l < i + length l.
Proof.
  induction l as [|x l IH]; intros mp mi i Hmi; cbn [argmax_from length].
  - lia.
  - destruct (is_nan mp); [lia |].
    destruct (fleb x mp).
    + specialize (IH mp mi (S i)). lia.
    + specialize (IH x i (S i)). lia.
Qed.

Lemma np_argmax_lt (l : array1) : l <> [] -> np_argmax l < length l.
Proof.
  destruct l as [|x l]; [congruence |]. intros _.
  apply (argmax_from_lt l x (mi := 0) (i := 1)). lia.
Qed.

Lemma argmax_from_after_nan (l : array1) (mp : float64) (mi i : nat) :
  is_nan mp = true -> argmax_from mp mi i l = mi.
Proof. intros H. destruct l; cbn [argmax_from]; [| rewrite H]; reflexivity. Qed.

Lemma fleb_nan_l (x : float64) : fleb NaN x = false.
Proof. reflexivity. Qed.

Lemma argmax_from_first_nan (l : array1) :
  forall mp mi i r,
  is_nan mp = false ->
  r < length l ->
  is_nan (nth r l NaN) = true ->
  (forall j, j < r -> is_nan (nth j l NaN) = false) ->
  argmax_from mp mi i l = i + r.
Proof.
  induction l as [|x l IH]; intros mp mi i r Hmp Hr Hnan Hbefore;
    cbn [length] in Hr; [lia |].
  cbn [argmax_from]. rewrite Hmp. destruct r as [|r].
  - cbn [nth] in Hnan. destruct x; try discriminate.
    rewrite fleb_nan_l, argmax_from_after_nan by reflexivity. lia.
  - assert (Nx : is_nan x = false) by (apply (Hbefore 0); lia).
    assert (Hb : forall j, j < r -> is_nan (nth j l NaN) = false).
    { intros j Hj. apply (Hbefore (S j)). lia. }
    cbn [nth] in Hnan.
    destruct (fleb x mp);
      rewrite (IH _ _ (S i) r) by (assumption || lia); lia.
Qed.

Lemma np_argmax_first_nan (l : array1) (r : nat) :
  r < length l ->
  is_nan (nth r l NaN) = true ->
  (forall j, j < r -> is_nan (nth j l NaN) = false) ->
  np_argmax l = r.
Proof.
  destruct l as [|x l]; cbn [length]; [lia |]. intros Hr Hnan Hbefore.
  cbn [np_argmax]. destruct r as [|r].
  - cbn [nth] in Hnan. now apply argmax_from_after_nan.
  - assert (Nx : is_nan x = false) by (apply (Hbefore 0); lia).
    rewrite (@argmax_from_first_nan l x 0 1 r); try assumption; try lia.
    intros j Hj. apply (Hbefore (S j)). lia.
Qed.

(** ** Flat positions in a grid *)

Lemma length_concat_rows (A X : Type) (c : nat) (row : X -> list A)
  (l : list X) :
  (forall x, length (row x) = c) ->
  length (concat (map row l)) = length l * c.
Proof.
  intros H. induction l as [|x l IH]; cbn [map concat length];
    [reflexivity |].
  rewrite length_app, H, IH. lia.
Qed.

Lemma nth_concat_rows (A X : Type) (d0 : A) (c : nat) (row : X -> list A)
  (l : list X) :
  (forall x, length (row x) = c) ->
  forall i a x0, i < length l -> a < c ->
  nth (i * c + a) (concat (map row l)) d0 = nth a (row (nth i l x0)) d0.
Proof.
  intros H. induction l as [|x l IH]; intros i a x0 Hi Ha;
    cbn [length] in Hi; [lia |].
  cbn [map concat]. destruct i as [|i].
  - cbn [nth]. rewrite app_nth1 by (rewrite H; lia). reflexivity.
  - rewrite app_nth2 by (rewrite H; lia). rewrite H.
    replace (S i * c + a - c) with (i * c + a) by lia.
    cbn [nth]. apply IH; lia.
Qed.

Lemma length_ravel_tabulate (A : Type) (r c : nat) (f : nat -> nat -> A) :
  length (ravel (tabulate r c f)) = r * c.
Proof.
  unfold ravel, tabulate.
  rewrite length_concat_rows with (c := c); [now rewrite length_seq |].
  intros i. now rewrite length_map, length_seq.
Qed.

Lemma nth_ravel_tabulate (r c i a : nat) (f : nat -> nat -> float64) :
  i < r -> a < c ->
  nth (i * c + a) (ravel (tabulate r c f)) NaN = f i a.
Proof.
  intros Hi Ha. unfold ravel, tabulate.
  rewrite nth_concat_rows with (c := c) (x0 := 0);
    [| intros x; now rewrite length_map, length_seq
     | now rewrite length_seq | assumption].
  rewrite seq_nth by assumption. now rewrite nth_map_seq.
Qed.

Lemma flat_position (r c idx : nat) :
  idx < r * c ->
  idx / c < r /\ idx mod c < c /\ idx = idx / c * c + idx mod c.
Proof.
  intros H. assert (Hc : c <> 0) by (intros ->; lia).
  pose proof (Nat.div_mod idx c Hc) as E.
  pose proof (Nat.mod_upper_bound idx c Hc) as M.
  repeat split; try lia.
  apply Nat.Div0.div_lt_upper_bound. lia.
Qed.

(** ** The position [best_of] finds in a grid *)

Lemma best_of_tabulate (r c : nat) (f : nat -> nat -> float64) :
  0 < r ->
  best_of (tabulate r c f) =
  (np_argmax (ravel (tabulate r c f)) / c,
   np_argmax (ravel (tabulate r c f)) mod c).
Proof.
  intros Hr. unfold best_of, unravel_index.
  now rewrite shape1_tabulate by assumption.
Qed.

Lemma ravel_tabulate_not_empty (r c : nat) (f : nat -> nat -> float64) :
  0 < r -> 0 < c -> ravel (tabulate r c f) <> [].
Proof.
  intros Hr Hc E. apply (f_equal (@length _)) in E.
  rewrite length_ravel_tabulate in E. simpl in E. nia.
Qed.

Lemma best_of_in_range (r c : nat) (f : nat -> nat -> float64) :
  0 < r -> 0 < c ->
  fst (best_of (tabulate r c f)) < r /\ snd (best_of (tabulate r c f)) < c.
Proof.
  intros Hr Hc. rewrite best_of_tabulate by assumption. cbn [fst snd].
  pose proof (np_argmax_lt (ravel_tabulate_not_empty f Hr Hc)) as H.
  rewrite length_ravel_tabulate in H.
  destruct (flat_position r c H) as [H1 [H2 _]]. auto.
Qed.

Lemma no_nan_ravel (r c : nat) (f : nat -> nat -> float64) :
  (forall d a, d < r -> a < c -> is_nan (f d a) = false) ->
  no_nan (ravel (tabulate r c f)).
Proof.
  intros H j Hj. rewrite length_ravel_tabulate in Hj.
  destruct (flat_position r c Hj) as [H1 [H2 E]].
  rewrite E, nth_ravel_tabulate by assumption. now apply H.
Qed.

Lemma best_of_maximal (r c : nat) (f : nat -> nat -> float64) :
  0 < r -> 0 < c ->
  (forall d a, d < r -> a < c -> is_nan (f d a) = false) ->
  forall d a, d < r -> a < c ->
  fleb (f d a)
       (f (fst (best_of (tabulate r c f)))
          (snd (best_of (tabulate r c f)))) = true /\
  (d * c + a <
     fst (best_of (tabulate r c f)) * c + snd (best_of (tabulate r c f)) ->
   fleb (f (fst (best_of (tabulate r c f)))
           (snd (best_of (tabulate r c f))))
        (f d a) = false).
Proof.
  intros Hr Hc Hnan d a Hd Ha.
  destruct (np_argmax_spec (ravel_tabulate_not_empty f Hr Hc)
              (@no_nan_ravel r c f Hnan)) as [Hlt [Hmax Hfirst]].
  rewrite best_of_tabulate by assumption. cbn [fst snd].
  rewrite length_ravel_tabulate in Hlt, Hmax.
  destruct (flat_position r c Hlt) as [H1 [H2 E]].
  set (idx := np_argmax (ravel (tabulate r c f))) in *.
  assert (Hda : d * c + a < r * c) by nia.
  split.
  - specialize (Hmax (d * c + a) Hda).
    rewrite nth_ravel_tabulate in Hmax by assumption.
    rewrite E, nth_ravel_tabulate in Hmax by assumption. exact Hmax.
  - intros Hbefore. rewrite <- E in Hbefore.
    specialize (Hfirst (d * c + a) Hbefore).
    rewrite nth_ravel_tabulate in Hfirst by assumption.
    rewrite E, nth_ravel_tabulate in Hfirst by assumption. exact Hfirst.
Qed.

Lemma best_of_first_nan (r c d0 a0 : nat) (f : nat -> nat -> float64) :
  d0 < r -> a0 < c ->
  is_nan (f d0 a0) = true ->
  (forall d a, d < r -> a < c -> d * c + a < d0 * c + a0 ->
     is_nan (f d a) = false) ->
  best_of (tabulate r c f) = (d0, a0).
Proof.
  intros Hd Ha Hnan Hbefore.
  rewrite best_of_tabulate by lia.
  assert (E : np_argmax (ravel (tabulate r c f)) = d0 * c + a0).
  { apply np_argmax_first_nan.
    - rewrite length_ravel_tabulate. nia.
    - now rewrite nth_ravel_tabulate.
    - intros j Hj. assert (Hj' : j < r * c) by nia.
      destruct (flat_position r c Hj') as [H1 [H2 Ej]].
      rewrite Ej, nth_ravel_tabulate by assumption.
      apply Hbefore; try assumption. lia. }
  rewrite E. f_equal.
  - rewrite Nat.div_add_l by lia. rewrite Nat.div_small by assumption. lia.
  - rewrite Nat.add_comm, Nat.Div0.mod_add. now apply Nat.mod_small.
Qed.

(** ** More on the batch [create_matrix_list] *)

Lemma list_prod_nil_r (A B : Type) (l : list A) :
  list_prod l (@nil B) = [].
Proof. induction l as [|x l IH]; simpl; [reflexivity | exact IH]. Qed.

Lemma perms_without_candidates (distances angles : list Z) :
  distances = [] \/ angles = [] -> perms distances angles = [].
Proof.
  unfold perms, product_range. intros [-> | ->]; simpl;
    [reflexivity | apply list_prod_nil_r].
Qed.

Lemma create_matrix_list_no_candidates (image : Type)
  (greycomatrix : image -> list Z -> list Z -> bool -> bool -> array4)
  (np_sqrt : float64 -> float64)
  (uninit : nat -> nat -> nat -> nat -> nat -> float64)
  (distances angles : list Z) (image_list : list image) :
  distances = [] \/ angles = [] ->
  create_matrix_list greycomatrix np_sqrt uninit distances angles
    image_list =
  match image_list with
  | [] => Some ([], [], [])
  | _ :: _ => None
  end.
Proof.
  intros H. unfold create_matrix_list.
  destruct image_list as [|img rest]; [reflexivity |].
  cbn [process_images]. unfold process_image.
  now rewrite (perms_without_candidates H).
Qed.

(** With no distance or no angle to try, the run of a batch that has an
    image stops on the unbound [max_chi]; the run of an empty batch returns
    three empty lists. *)
Theorem create_matrix_list_without_candidates (image : Type)
  (greycomatrix : image -> list Z -> list Z -> bool -> bool -> array4)
  (np_sqrt : float64 -> float64)
  (uninit : nat -> nat -> nat -> nat -> nat -> float64)
  (distances angles : list Z) (image_list : list image) :
  distances = [] \/ angles = [] ->
  create_matrix_list greycomatrix np_sqrt uninit distances angles
    image_list =
  match image_list with
  | [] => Some ([], [], [])
  | _ :: _ => None
  end.
Proof.
  intros H. now apply create_matrix_list_no_candidates.
Qed.

Lemma create_matrix_list_without_candidates_witness :
  create_matrix_list (row_glcm 2) sqrt_down zero_filled [] [0;90]%Z
    [stripes; checks] = None.
Proof.
  exact (@create_matrix_list_without_candidates _ (row_glcm 2) sqrt_down
           zero_filled [] [0;90]%Z [stripes; checks] (or_introl eq_refl)).
Defined.

Lemma in_batch_trace (image : Type)
  (greycomatrix : image -> list Z -> list Z -> bool -> bool -> array4)
  (uninit : nat -> nat -> nat -> nat -> nat -> float64)
  (distances angles : list Z) (image_list : list image) :
  forall f k o,
  In o (batch_trace greycomatrix uninit distances angles f k image_list) ->
  exists g,
    o = offset_at distances angles
          (best_of (tabulate (length distances) (length angles) g)).
Proof.
  induction image_list as [|img rest IH]; intros f k o Ho;
    cbn [batch_trace] in Ho; [contradiction |].
  apply in_app_or in Ho. destruct Ho as [Ho | Ho].
  - unfold scan_trace in Ho. apply in_map_iff in Ho.
    destruct Ho as [t [<- _]]. unfold partial_grid. eexists. reflexivity.
  - exact (IH _ _ _ Ho).
Qed.

Lemma not_empty_length (A : Type) (l : list A) : l <> [] -> 0 < length l.
Proof. destruct l; [congruence | simpl; lia]. Qed.

(** Every offset the run returns is made of one of the distances and one
    of the angles it was given. *)
Theorem create_matrix_list_offsets_are_candidates (image : Type)
  (greycomatrix : image -> list Z -> list Z -> bool -> bool -> array4)
  (np_sqrt : float64 -> float64)
  (uninit : nat -> nat -> nat -> nat -> nat -> float64)
  (distances angles : list Z) (image_list : list image)
  (ml : list array4) (il : list (Z * Z)) (hl : list array1) :
  create_matrix_list greycomatrix np_sqrt uninit distances angles
    image_list = Some (ml, il, hl) ->
  forall o, In o il -> In (fst o) distances /\ In (snd o) angles.
Proof.
  intros Hrun o Ho.
  destruct (list_eq_dec Z.eq_dec distances []) as [ED | ND];
    [| destruct (list_eq_dec Z.eq_dec angles []) as [EA | NA]].
  - rewrite create_matrix_list_no_candidates in Hrun by now left.
    destruct image_list; [| discriminate].
    injection Hrun as <- <- <-. contradiction.
  - rewrite create_matrix_list_no_candidates in Hrun by now right.
    destruct image_list; [| discriminate].
    injection Hrun as <- <- <-. contradiction.
  - rewrite create_matrix_list_eq in Hrun by assumption.
    injection Hrun as _ <- _.
    destruct (in_batch_trace _ _ _ _ _ _ _ _ Ho) as [g ->].
    destruct (best_of_in_range g (not_empty_length ND)
                (not_empty_length NA)) as [H1 H2].
    unfold offset_at. cbn [fst snd]. split; now apply nth_In.
Qed.

Lemma create_matrix_list_offsets_are_candidates_witness :
  exists ml il hl,
    create_matrix_list (row_glcm 2) sqrt_down zero_filled [1;3]%Z [0;90]%Z
      [stripes; checks] = Some (ml, il, hl) /\
    forall o, In o il -> In (fst o) [1;3]%Z /\ In (snd o) [0;90]%Z.
Proof.
  pose proof (@create_matrix_list_eq _ (row_glcm 2) sqrt_down zero_filled
                [1;3]%Z [0;90]%Z ltac:(discriminate) ltac:(discriminate)
                [stripes; checks]) as E.
  eexists _, _, _. split; [exact E |].
  exact (@create_matrix_list_offsets_are_candidates _ (row_glcm 2)
           sqrt_down zero_filled [1;3]%Z [0;90]%Z [stripes; checks]
           _ _ _ E).
Defined.

(** When no candidate of an image scores [nan], the matrix of the image is
    built from a candidate whose score no other exceeds, the first such one
    in the order of the scan. *)
Theorem create_matrix_list_selects_maximum (image : Type)
  (greycomatrix : image -> list Z -> list Z -> bool -> bool -> array4)
  (np_sqrt : float64 -> float64)
  (uninit : nat -> nat -> nat -> nat -> nat -> float64)
  (distances angles : list Z) (image_list : list image)
  (k : nat) (img : image) :
  distances <> [] -> angles <> [] ->
  nth_error image_list k = Some img ->
  (forall d a, d < length distances -> a < length angles ->
     is_nan (score greycomatrix uninit distances angles k img d a) = false) ->
  exists ml il hl i j,
    create_matrix_list greycomatrix np_sqrt uninit distances angles
      image_list = Some (ml, il, hl) /\
    i < length distances /\ j < length angles /\
    nth_error ml k =
      Some (create_matrix greycomatrix img (Some [nth i distances 0%Z])
              (Some [nth j angles 0%Z]) false true) /\
    forall d a, d < length distances -> a < length angles ->
      fleb (score greycomatrix uninit distances angles k img d a)
           (score greycomatrix uninit distances angles k img i j) = true /\
      (d * length angles + a < i * length angles + j ->
       fleb (score greycomatrix uninit distances angles k img i j)
            (score greycomatrix uninit distances angles k img d a) = false).
Proof.
  intros HD HA Hk Hnan.
  pose proof (not_empty_length HD) as PD.
  pose proof (not_empty_length HA) as PA.
  set (b := best_of (score_grid greycomatrix uninit distances angles k img)).
  eexists _, _, _, (fst b), (snd b).
  split; [apply create_matrix_list_eq; assumption |].
  destruct (best_of_in_range
              (score greycomatrix uninit distances angles k img) PD PA)
    as [H1 H2].
  split; [exact H1 |]. split; [exact H2 |]. split.
  - exact (nth_error_map_from
             (optimal_of greycomatrix uninit distances angles)
             image_list 0 k Hk).
  - intros d a Hd Ha.
    exact (best_of_maximal
             (score greycomatrix uninit distances angles k img)
             PD PA Hnan Hd Ha).
Qed.

Lemma create_matrix_list_selects_maximum_witness :
  exists ml il hl i j,
    create_matrix_list (row_glcm 2) sqrt_down zero_filled [1;2]%Z [0]%Z
      [stripes; checks] = Some (ml, il, hl) /\
    i < 2 /\ j < 1 /\
    nth_error ml 1 =
      Some (create_matrix (row_glcm 2) checks (Some [nth i [1;2]%Z 0%Z])
              (Some [nth j [0]%Z 0%Z]) false true).
Proof.
  destruct (@create_matrix_list_selects_maximum _ (row_glcm 2) sqrt_down
              zero_filled [1;2]%Z [0]%Z [stripes; checks] 1 checks)
    as (ml & il & hl & i & j & H & Hi & Hj & Hm & _).
  - discriminate.
  - discriminate.
  - reflexivity.
  - intros d a Hd Ha.
    destruct d as [|[|d]]; [| |simpl in Hd; lia];
      (destruct a as [|a]; [|simpl in Ha; lia]); vm_compute; reflexivity.
  - exists ml, il, hl, i, j. repeat split; assumption.
Defined.

(** When a candidate of an image scores [nan] and none before it in the
    order of the scan does, the matrix of the image is built from that
    candidate, whatever the other scores are. *)
Theorem create_matrix_list_selects_first_nan (image : Type)
  (greycomatrix : image -> list Z -> list Z -> bool -> bool -> array4)
  (np_sqrt : float64 -> float64)
  (uninit : nat -> nat -> nat -> nat -> nat -> float64)
  (distances angles : list Z) (image_list : list image)
  (k : nat) (img : image) (d0 a0 : nat) :
  d0 < length distances -> a0 < length angles ->
  nth_error image_list k = Some img ->
  is_nan (score greycomatrix uninit distances angles k img d0 a0) = true ->
  (forall d a, d < length distances -> a < length angles ->
     d * length angles + a < d0 * length angles + a0 ->
     is_nan (score greycomatrix uninit distances angles k img d a) = false) ->
  exists ml il hl,
    create_matrix_list greycomatrix np_sqrt uninit distances angles
      image_list = Some (ml, il, hl) /\
    nth_error ml k =
      Some (create_matrix greycomatrix img (Some [nth d0 distances 0%Z])
              (Some [nth a0 angles 0%Z]) false true) /\
    nth_error il (S k * (length distances * length angles) - 1) =
      Some (nth d0 distances 0%Z, nth a0 angles 0%Z).
Proof.
  intros Hd Ha Hk Hnan Hbefore.
  assert (HD : distances <> []) by (intros ->; simpl in Hd; lia).
  assert (HA : angles <> []) by (intros ->; simpl in Ha; lia).
  pose proof (best_of_first_nan
                (score greycomatrix uninit distances angles k img)
                Hd Ha Hnan Hbefore) as Hb.
  eexists _, _, _.
  split; [apply create_matrix_list_eq; assumption |]. split.
  - rewrite (nth_error_map_from
               (optimal_of greycomatrix uninit distances angles)
               image_list 0 k Hk).
    cbn [Nat.add]. unfold optimal_of, chosen_offset, score_grid.
    now rewrite Hb.
  - rewrite (batch_trace_last greycomatrix uninit HD HA image_list _ 0 k Hk).
    cbn [Nat.add]. unfold chosen_offset, score_grid. now rewrite Hb.
Qed.

Lemma create_matrix_list_selects_first_nan_witness :
  exists ml il hl,
    create_matrix_list (row_glcm 2) sqrt_down zero_filled [1;5;2]%Z [0]%Z
      [stripes] = Some (ml, il, hl) /\
    nth_error ml 0 =
      Some (create_matrix (row_glcm 2) stripes (Some [5%Z]) (Some [0%Z])
              false true).
Proof.
  destruct (@create_matrix_list_selects_first_nan _ (row_glcm 2) sqrt_down
              zero_filled [1;5;2]%Z [0]%Z [stripes] 0 stripes 1 0)
    as (ml & il & hl & H & Hm & _).
  - simpl. lia.
  - simpl. lia.
  - reflexivity.
  - vm_compute. reflexivity.
  - intros d a Hd Ha Hlt. simpl in Ha, Hlt.
    assert (d = 0) by lia. assert (a = 0) by lia. subst.
    vm_compute. reflexivity.
  - exists ml, il, hl. split; assumption.
Defined.

Lemma map_from_app (A B : Type) (f : nat -> A -> B) (l1 l2 : list A) :
  forall k,
  map_from f k (l1 ++ l2) =
  map_from f k l1 ++ map_from f (k + length l1) l2.
Proof.
  induction l1 as [|x l1 IH]; intros k; cbn [app map_from length].
  - now rewrite Nat.add_0_r.
  - rewrite IH. do 3 f_equal. lia.
Qed.

Lemma map_from_shift (A B : Type) (f : nat -> A -> B) (n : nat)
  (l : list A) :
  forall k, map_from (fun i => f (n + i)) k l = map_from f (n + k) l.
Proof.
  induction l as [|x l IH]; intros k; cbn [map_from]; [reflexivity |].
  rewrite IH. do 2 f_equal. lia.
Qed.

Lemma batch_trace_app (image : Type)
  (greycomatrix : image -> list Z -> list Z -> bool -> bool -> array4)
  (uninit : nat -> nat -> nat -> nat -> nat -> float64)
  (distances angles : list Z) (l1 l2 : list image) :
  forall f k, exists f',
  batch_trace greycomatrix uninit distances angles f k (l1 ++ l2) =
  batch_trace greycomatrix uninit distances angles f k l1 ++
  batch_trace greycomatrix uninit distances angles f' (k + length l1) l2.
Proof.
  induction l1 as [|img l1 IH]; intros f k; cbn [app batch_trace length].
  - exists f. now rewrite Nat.add_0_r.
  - destruct (IH (score greycomatrix uninit distances angles k img) (S k))
      as [f' E].
    exists f'. rewrite E, <- app_assoc. do 3 f_equal. lia.
Qed.

(** A batch made of two batches: the matrices and the descriptor vectors
    are those of the first batch followed by those of the second, and the
    offsets begin with the offsets of the first batch. *)
Theorem create_matrix_list_app (image : Type)
  (greycomatrix : image -> list Z -> list Z -> bool -> bool -> array4)
  (np_sqrt : float64 -> float64)
  (uninit : nat -> nat -> nat -> nat -> nat -> float64)
  (distances angles : list Z) (l1 l2 : list image) :
  distances <> [] -> angles <> [] ->
  exists ml1 il1 hl1 ml2 il2 hl2 il,
    create_matrix_list greycomatrix np_sqrt uninit distances angles l1 =
      Some (ml1, il1, hl1) /\
    create_matrix_list greycomatrix np_sqrt
      (fun i => uninit (length l1 + i)) distances angles l2 =
      Some (ml2, il2, hl2) /\
    create_matrix_list greycomatrix np_sqrt uninit distances angles
      (l1 ++ l2) = Some (ml1 ++ ml2, il, hl1 ++ hl2) /\
    firstn (length il1) il = il1 /\
    length il = length il1 + length il2.
Proof.
  intros HD HA.
  destruct (batch_trace_app greycomatrix uninit distances angles l1 l2
              (fun _ _ => fzero) 0) as [f' E].
  eexists _, _, _, _, _, _, _.
  split; [apply create_matrix_list_eq; assumption |].
  split; [apply create_matrix_list_eq; assumption |].
  split; [| split].
  - rewrite create_matrix_list_eq by assumption.
    rewrite !map_from_app. cbn [Nat.add].
    pose proof (map_from_shift
                  (optimal_of greycomatrix uninit distances angles)
                  (length l1) l2 0) as Eo.
    pose proof (map_from_shift
                  (haralick_of greycomatrix np_sqrt uninit distances angles)
                  (length l1) l2 0) as Eh.
    rewrite Nat.add_0_r in Eo, Eh. rewrite <- Eo, <- Eh. reflexivity.
  - rewrite E. rewrite firstn_app, Nat.sub_diag, firstn_all. cbn [firstn].
    apply app_nil_r.
  - rewrite !length_batch_trace, length_app by assumption. lia.
Qed.

Lemma create_matrix_list_app_witness :
  exists ml1 il1 hl1 ml2 il2 hl2 il,
    create_matrix_list (row_glcm 2) sqrt_down zero_filled [1;2]%Z [0]%Z
      [stripes] = Some (ml1, il1, hl1) /\
    create_matrix_list (row_glcm 2) sqrt_down
      (fun i => zero_filled (1 + i)) [1;2]%Z [0]%Z [checks; flat] =
      Some (ml2, il2, hl2) /\
    create_matrix_list (row_glcm 2) sqrt_down zero_filled [1;2]%Z [0]%Z
      [stripes; checks; flat] = Some (ml1 ++ ml2, il, hl1 ++ hl2).
Proof.
  destruct (@create_matrix_list_app _ (row_glcm 2) sqrt_down zero_filled
              [1;2]%Z [0]%Z [stripes] [checks; flat])
    as (ml1 & il1 & hl1 & ml2 & il2 & hl2 & il & H1 & H2 & H & _);
    [discriminate | discriminate |].
  exists ml1, il1, hl1, ml2, il2, hl2, il. repeat split; assumption.
Defined.

(** ** More on the descriptors [create_haralick] *)

Lemma fmul_zero_finite (w : float64) :
  is_finite w = true -> fmul fzero w = fzero.
Proof.
  destruct w as [q| | |]; try discriminate. intros _.
  unfold fzero, of_Z. simpl. f_equal. apply Qcmult_0_l.
Qed.

Lemma fmul_finite_zero (w : float64) :
  is_finite w = true -> fmul w fzero = fzero.
Proof. intros H. rewrite fmul_comm. now apply fmul_zero_finite. Qed.

Lemma is_finite_of_Z (z : Z) : is_finite (of_Z z) = true.
Proof. reflexivity. Qed.

Lemma Qc_one_plus_nonneg (q : Qc) : (0 <= q)%Qc -> (1 + q)%Qc <> 0%Qc.
Proof.
  intros H E.
  assert (L : (0 < 1 + q)%Qc).
  { apply Qclt_le_trans with (y := 1%Qc); [reflexivity |].
    rewrite <- (Qcplus_0_r 1) at 1. apply Qcplus_le_compat;
      [apply Qcle_refl | assumption]. }
  rewrite E in L. now apply Qclt_not_eq in L.
Qed.

Lemma homo_weight_finite (d : Z) :
  is_finite (fdiv fone (fadd fone (of_Z (d ^ 2)))) = true.
Proof.
  assert (Hd : (0 <= d ^ 2)%Z) by (apply Z.pow_even_nonneg; now exists 1%Z).
  pose proof (nonneg_of_Z Hd) as Hq. unfold of_Z, nonneg in Hq.
  unfold fone, of_Z. cbn [fadd fdiv].
  change (Q2Qc (inject_Z 1)) with 1%Qc.
  destruct (Qc_eq_dec (1 + Q2Qc (inject_Z (d ^ 2))) 0) as [E | E].
  - now apply Qc_one_plus_nonneg in E.
  - reflexivity.
Qed.

Lemma sum_upto_constant_zero (n : nat) (f : nat -> float64) :
  (forall i, i < n -> f i = fzero) -> sum_upto n f = fzero.
Proof.
  intros H. transitivity (sum_upto n (fun _ => fzero));
    [now apply sum_upto_ext | apply sum_upto_zeros].
Qed.

Lemma sum_upto_constant_nan (n : nat) (f : nat -> float64) :
  0 < n -> (forall i, i < n -> f i = NaN) -> sum_upto n f = NaN.
Proof.
  intros Hn H. transitivity (sum_upto n (fun _ => NaN));
    [now apply sum_upto_ext | now apply sum_upto_nan].
Qed.

Lemma arange_as_map (n : nat) (g : Z -> float64) :
  map g (arange n) = map (fun i => g (Z.of_nat i)) (seq 0 n).
Proof. unfold arange. apply map_map. Qed.

Section ZeroMatrix.

Variable np_sqrt : float64 -> float64.
Hypothesis sqrt_nan : np_sqrt NaN = NaN.
Variable n : nat.
Hypothesis n_positive : 0 < n.

Local Abbreviation zeros := (np_zeros n n).

Lemma level_zeros : level zeros = n.
Proof. apply shape0_tabulate. Qed.

Lemma length_zeros : length zeros = n.
Proof. apply shape0_tabulate. Qed.

Lemma weighted_zeros (w : nat -> nat -> float64) :
  (forall i j, is_finite (w i j) = true) ->
  sum_axes01 (mmap2 fmul zeros (tabulate n n w)) = fzero.
Proof.
  intros Hw. unfold np_zeros.
  rewrite mmap2_tabulate, sum_axes01_tabulate.
  apply sum_upto_constant_zero. intros j _.
  apply sum_upto_constant_zero. intros i _. now apply fmul_zero_finite.
Qed.

Lemma weighted_zeros_nan :
  sum_axes01 (mmap2 fmul zeros (tabulate n n (fun _ _ => NaN))) = NaN.
Proof.
  unfold np_zeros. rewrite mmap2_tabulate, sum_axes01_tabulate.
  apply sum_upto_constant_nan; [assumption |]. intros j _.
  now apply sum_upto_constant_nan.
Qed.

Lemma homo_zeros : homo zeros = fzero.
Proof.
  unfold homo, homo_weight, I_minus_J. rewrite level_zeros, mmap_tabulate.
  apply weighted_zeros. intros i j. apply homo_weight_finite.
Qed.

Lemma contrast_zeros : contrast zeros = fzero.
Proof.
  unfold contrast, con_weight, I_minus_J.
  rewrite level_zeros, mmap_tabulate.
  apply weighted_zeros. intros i j. reflexivity.
Qed.

Lemma asm_zeros : asm zeros = fzero.
Proof.
  unfold asm, np_zeros. rewrite mmap_tabulate, sum_axes01_tabulate.
  apply sum_upto_constant_zero. intros j _.
  apply sum_upto_constant_zero. intros i _. by_evaluation.
Qed.

Lemma msum_zeros : msum zeros = fzero.
Proof.
  unfold np_zeros. rewrite msum_tabulate.
  apply sum_upto_constant_zero. intros i _. apply sum_upto_zeros.
Qed.

Lemma p_zeros : p zeros = tabulate n n (fun _ _ => NaN).
Proof.
  unfold p. rewrite msum_zeros. unfold np_zeros. rewrite mmap_tabulate.
  apply tabulate_ext. intros i j _ _. by_evaluation.
Qed.

Lemma px_zeros : px zeros = map (fun _ => NaN) (seq 0 n).
Proof.
  unfold px. rewrite p_zeros, sum_axis0_tabulate.
  apply map_ext. intros j. now apply sum_upto_nan.
Qed.

Lemma py_zeros : py zeros = map (fun _ => NaN) (seq 0 n).
Proof.
  unfold py. rewrite p_zeros, sum_axis1_tabulate.
  apply map_ext. intros j. now apply sum_upto_nan.
Qed.

Lemma np_dot_nan (g : Z -> float64) :
  np_dot (map (fun _ => NaN) (seq 0 n)) (map g (arange n)) = NaN.
Proof.
  rewrite arange_as_map, np_dot_map.
  now apply (@sum_upto_constant_nan n (fun i => fmul NaN (g (Z.of_nat i)))).
Qed.

Lemma ux_zeros : ux zeros = NaN.
Proof. unfold ux, k. rewrite px_zeros, length_zeros. apply np_dot_nan. Qed.

Lemma uy_zeros : uy zeros = NaN.
Proof. unfold uy, k. rewrite py_zeros, length_zeros. apply np_dot_nan. Qed.

Lemma sx_zeros : sx np_sqrt zeros = NaN.
Proof.
  unfold sx, vx, k. rewrite px_zeros, length_zeros, np_dot_nan.
  exact sqrt_nan.
Qed.

Lemma sy_zeros : sy np_sqrt zeros = NaN.
Proof.
  unfold sy, vy, k. rewrite py_zeros, length_zeros, np_dot_nan.
  exact sqrt_nan.
Qed.

Lemma corr_zeros : corr np_sqrt zeros = NaN.
Proof. unfold corr. now rewrite sx_zeros, sy_zeros. Qed.

Lemma px_plus_y_zeros :
  px_plus_y zeros = map (fun _ => fzero) (arange (n * 2)).
Proof.
  unfold px_plus_y, idx1, I_plus_J. rewrite level_zeros.
  apply map_ext. intros z. unfold np_zeros. rewrite masked_sum_ravel.
  apply sum_upto_constant_zero. intros i _.
  apply sum_upto_constant_zero. intros j _.
  now destruct (Z.eqb _ z).
Qed.

Lemma np_dot_zeros (g : Z -> float64) (l : list Z) :
  (forall z, is_finite (g z) = true) ->
  np_dot (map g l) (map (fun _ => fzero) l) = fzero.
Proof.
  intros Hg. rewrite np_dot_map.
  rewrite (map_ext _ (fun _ => fzero)); [apply vsum_zeros |].
  intros z. now apply fmul_finite_zero.
Qed.

Lemma mean_zeros : mean zeros = fzero.
Proof.
  unfold mean, tk. rewrite px_plus_y_zeros, length_zeros, Nat.mul_comm.
  now apply np_dot_zeros.
Qed.

Lemma stdev_zeros : stdev np_sqrt zeros = np_sqrt fzero.
Proof.
  unfold stdev. rewrite mean_zeros. unfold tk.
  rewrite px_plus_y_zeros, length_zeros, Nat.mul_comm.
  rewrite (np_dot_zeros (fun z => of_Z (z ^ 2))) by reflexivity.
  replace (fsub fzero (fpow fzero 2)) with fzero
    by (symmetry; by_evaluation).
  reflexivity.
Qed.

Lemma centred_zeros : centred zeros = tabulate n n (fun _ _ => NaN).
Proof.
  unfold centred, I_plus_J.
  now rewrite level_zeros, ux_zeros, uy_zeros, mmap_tabulate.
Qed.

Lemma cls_shade_zeros : cls_shade zeros = NaN.
Proof.
  unfold cls_shade, shade_weight. rewrite centred_zeros, mmap_tabulate.
  apply weighted_zeros_nan.
Qed.

Lemma cls_prom_zeros : cls_prom zeros = NaN.
Proof.
  unfold cls_prom, prom_weight. rewrite centred_zeros, mmap_tabulate.
  apply weighted_zeros_nan.
Qed.

Lemma create_haralick_zeros_value :
  create_haralick np_sqrt zeros =
  [fzero; fzero; fzero; np_sqrt fzero; NaN; fzero; np_sqrt fzero; NaN; NaN].
Proof.
  unfold create_haralick, energy.
  now rewrite homo_zeros, asm_zeros, contrast_zeros, corr_zeros, mean_zeros,
    stdev_zeros, cls_shade_zeros, cls_prom_zeros.
Qed.

End ZeroMatrix.

(** On a matrix of zeros (of any size n > 0) the guard of the correlation
    does not apply: with a square root that maps [nan] to [nan], the
    correlation and the two cluster descriptors are [nan], while
    homogeneity, angular second moment, contrast and mean are 0. *)
Theorem create_haralick_zeros (np_sqrt : float64 -> float64) (n : nat) :
  np_sqrt NaN = NaN -> 0 < n ->
  create_haralick np_sqrt (np_zeros n n) =
  [fzero; fzero; fzero; np_sqrt fzero; NaN; fzero; np_sqrt fzero; NaN; NaN].
Proof. intros Hs Hn. now apply create_haralick_zeros_value. Qed.

Lemma create_haralick_zeros_witness :
  create_haralick sqrt_down (np_zeros 3 3) =
  [fzero; fzero; fzero; sqrt_down fzero; NaN; fzero; sqrt_down fzero;
   NaN; NaN].
Proof.
  apply (@create_haralick_zeros sqrt_down 3); [reflexivity | lia].
Defined.

(** ** Image conversion [convert_image] *)

Lemma uint8_mul_255 (x : Z) : uint8_mul x 255 = ((- x) mod 256)%Z.
Proof.
  unfold uint8_mul. replace (x * 255)%Z with (- x + x * 256)%Z by ring.
  apply Z_mod_plus_full.
Qed.

Lemma uint8_negate (x : Z) :
  (0 <= x < 256)%Z ->
  uint8_mul x 255 = (if Z.eqb x 0 then 0 else 256 - x)%Z.
Proof.
  intros Hx. rewrite uint8_mul_255. destruct (Z.eqb_spec x 0) as [-> | Hne].
  - reflexivity.
  - replace (- x)%Z with (256 - x + (-1) * 256)%Z by ring.
    rewrite Z_mod_plus_full. apply Z.mod_small. lia.
Qed.

(** Without resizing (it is not wanted, or no size is given) the image read
    from the file is returned with every grey level negated modulo 256: a
    cell 0 stays 0 and a cell [x] above 0 becomes [256 - x].  The message on
    the missing size is printed in both cases. *)
Theorem convert_image_without_resize
  (imread : String.string -> Z -> option (ndarray Z))
  (resize : ndarray Z -> nat * nat -> ndarray binary64)
  (wild : binary64 -> Z) (image : String.string) (size : option nat)
  (greyscale resize_wanted : bool) (img : ndarray Z) :
  resize_wanted = false \/ size = None ->
  imread image (if greyscale then 0 else 1)%Z = Some img ->
  Forall (fun x => 0 <= x < 256)%Z (cells img) ->
  convert_image imread resize wild image size greyscale resize_wanted =
  mk_outcome [size_message]
    (Some (array_map (fun x => if Z.eqb x 0 then 0 else 256 - x)%Z img)).
Proof.
  intros Hno Hread Hcells. unfold convert_image.
  assert (E : (if resize_wanted then size else None) = None).
  { destruct Hno as [-> | ->]; [reflexivity | now destruct resize_wanted]. }
  rewrite E.
  assert (R : (if greyscale then imread image 0%Z else imread image 1%Z)
              = Some img) by now destruct greyscale.
  rewrite R. do 2 f_equal. unfold array_map. f_equal.
  apply map_ext_in. intros x Hx. apply uint8_negate.
  rewrite Forall_forall in Hcells. now apply Hcells.
Qed.

Lemma convert_image_without_resize_witness :
  convert_image read_sample rescale_only no_wild String.EmptyString
    (Some 256) true false =
  mk_outcome [size_message] (Some (mk_array [2; 2] [0; 255; 128; 1]%Z)).
Proof.
  apply (@convert_image_without_resize read_sample rescale_only no_wild
           String.EmptyString (Some 256) true false sample_image).
  - now left.
  - reflexivity.
  - repeat constructor; lia.
Defined.

(** The product by 255 undoes the quotient by 255 on every grey level: in
    binary64, [(x / 255) * 255] truncates to [x] for the 256 values of
    [x]. *)
Lemma grey_levels_survive (wild : binary64 -> Z) :
  forallb (fun x =>
             Z.eqb (astype_uint8 wild (b64_mul (ratio x 255) (b64_of_Z 255)))
                   x)
          (map Z.of_nat (seq 0 256)) = true.
Proof. vm_compute. reflexivity. Qed.

Lemma grey_level_survives (wild : binary64 -> Z) (x : Z) :
  (0 <= x <= 255)%Z ->
  astype_uint8 wild (b64_mul (ratio x 255) (b64_of_Z 255)) = x.
Proof.
  intros Hx. apply Z.eqb_eq.
  apply (proj1 (forallb_forall _ _) (grey_levels_survive wild)).
  apply in_map_iff. exists (Z.to_nat x). split; [lia |].
  apply in_seq. lia.
Qed.

Lemma array_map_fixed (T : Type) (f : T -> T) (x : ndarray T) :
  (forall c, In c (cells x) -> f c = c) -> array_map f x = x.
Proof.
  intros H. destruct x as [sh cs]. unfold array_map. cbn [shape cells] in *.
  f_equal. rewrite <- (map_id cs) at 2. now apply map_ext_in.
Qed.

(** When resizing has nothing to interpolate and returns the grey levels of
    the image read over 255 (the float64 quotients [x / 255]),
    [convert_image] returns the image read, cell for cell, and prints
    nothing: no grey level is lost to rounding. *)
Theorem convert_image_round_trip
  (imread : String.string -> Z -> option (ndarray Z))
  (resize : ndarray Z -> nat * nat -> ndarray binary64)
  (wild : binary64 -> Z) (image : String.string) (s : nat)
  (greyscale : bool) (img : ndarray Z) :
  imread image (if greyscale then 0 else 1)%Z = Some img ->
  Forall (fun x => 0 <= x <= 255)%Z (cells img) ->
  resize img (s, s) = array_map (fun x => ratio x 255) img ->
  convert_image imread resize wild image (Some s) greyscale true =
  mk_outcome [] (Some img).
Proof.
  intros Hread Hcells Hresize. unfold convert_image.
  assert (R : (if greyscale then imread image 0%Z else imread image 1%Z)
              = Some img) by now destruct greyscale.
  rewrite R, Hresize. do 2 f_equal.
  transitivity (array_map
                  (fun x => astype_uint8 wild
                              (b64_mul (ratio x 255) (b64_of_Z 255))) img).
  - unfold array_map. cbn [shape cells]. now rewrite map_map, map_map.
  - apply array_map_fixed. intros c Hc. apply grey_level_survives.
    rewrite Forall_forall in Hcells. now apply Hcells.
Qed.

Lemma convert_image_round_trip_witness :
  convert_image read_sample rescale_only no_wild String.EmptyString
    (Some 2) true true =
  mk_outcome [] (Some sample_image).
Proof.
  apply (@convert_image_round_trip read_sample rescale_only no_wild
           String.EmptyString 2 true sample_image).
  - reflexivity.
  - repeat constructor; lia.
  - reflexivity.
Defined.

(** When the file cannot be read, [convert_image] raises, whatever the
    other arguments. *)
Theorem convert_image_unreadable
  (imread : String.string -> Z -> option (ndarray Z))
  (resize : ndarray Z -> nat * nat -> ndarray binary64)
  (wild : binary64 -> Z) (image : String.string) (size : option nat)
  (greyscale resize_wanted : bool) :
  imread image (if greyscale then 0 else 1)%Z = None ->
  returned
    (convert_image imread resize wild image size greyscale resize_wanted) =
  None.
Proof.
  intros Hread. unfold convert_image.
  assert (R : (if greyscale then imread image 0%Z else imread image 1%Z)
              = None) by now destruct greyscale.
  rewrite R. now destruct (if resize_wanted then size else None).
Qed.

Lemma convert_image_unreadable_witness :
  returned
    (convert_image read_sample rescale_only no_wild
       (String.String Ascii.zero String.EmptyString) None false true) =
  None.
Proof.
  apply (@convert_image_unreadable read_sample rescale_only no_wild
           (String.String Ascii.zero String.EmptyString) None false true).
  reflexivity.
Defined.

(** ** The image list [create_image_list] *)

Lemma convert_all_readable
  (imread : String.string -> Z -> option (ndarray Z))
  (resize : ndarray Z -> nat * nat -> ndarray binary64)
  (wild : binary64 -> Z) (paths : list String.string) :
  (forall p, In p paths -> imread p 0%Z <> None) ->
  exists imgs,
    convert_all imread resize wild paths = mk_outcome [] (Some imgs) /\
    length imgs = length paths /\
    forall i p, nth_error paths i = Some p ->
      exists img,
        imread p 0%Z = Some img /\
        nth_error imgs i =
          Some (array_map (astype_uint8 wild)
                  (array_map (fun x => b64_mul x (b64_of_Z 255))
                     (resize img (256, 256)))).
Proof.
  induction paths as [|p paths IH]; intros Hread.
  - exists []. repeat split. intros [|i] q Hq; discriminate.
  - destruct IH as [imgs [E [Hlen Hnth]]].
    { intros q Hq. apply Hread. now right. }
    destruct (imread p 0%Z) as [img|] eqn:Ep;
      [| now elim (Hread p (or_introl eq_refl))].
    eexists (_ :: imgs). cbn [convert_all]. unfold convert_image.
    rewrite Ep. cbn [returned printed]. rewrite E. cbn [returned printed].
    split; [reflexivity |]. split; [cbn [length]; now rewrite Hlen |].
    intros [|i] q Hq; cbn [nth_error] in *.
    + injection Hq as <-. exists img. split; [exact Ep | reflexivity].
    + now apply Hnth.
Qed.

(** When every file the directory lists can be read, [create_image_list]
    returns one image per file, in the order of the listing, each read in
    grey levels and resized to 256 x 256, and prints nothing; the
    [image_size] the object was made with plays no part. *)
Theorem create_image_list_converts_each
  (imread : String.string -> Z -> option (ndarray Z))
  (resize : ndarray Z -> nat * nat -> ndarray binary64)
  (wild : binary64 -> Z) (glob : String.string -> list String.string)
  (self : FeaturesLists) :
  (forall p, In p (glob (image_dir self)) -> imread p 0%Z <> None) ->
  exists imgs,
    create_image_list imread resize wild glob self =
      mk_outcome [] (Some imgs) /\
    length imgs = length (glob (image_dir self)) /\
    forall i p, nth_error (glob (image_dir self)) i = Some p ->
      exists img,
        imread p 0%Z = Some img /\
        nth_error imgs i =
          Some (array_map (astype_uint8 wild)
                  (array_map (fun x => b64_mul x (b64_of_Z 255))
                     (resize img (256, 256)))).
Proof. intros H. now apply convert_all_readable. Qed.

Lemma create_image_list_converts_each_witness :
  exists imgs,
    create_image_list read_sample rescale_only no_wild two_samples
      (new_features_lists String.EmptyString (Some 64)) =
      mk_outcome [] (Some imgs) /\
    length imgs = 2.
Proof.
  destruct (@create_image_list_converts_each read_sample rescale_only
              no_wild two_samples
              (new_features_lists String.EmptyString (Some 64)))
    as [imgs [E [Hlen _]]].
  - intros p Hp. cbn in Hp. destruct Hp as [<- | [<- | []]]; discriminate.
  - exists imgs. split; assumption.
Defined.

(** When one of the listed files cannot be read, [create_image_list]
    raises. *)
Theorem create_image_list_unreadable
  (imread : String.string -> Z -> option (ndarray Z))
  (resize : ndarray Z -> nat * nat -> ndarray binary64)
  (wild : binary64 -> Z) (glob : String.string -> list String.string)
  (self : FeaturesLists) (p : String.string) :
  In p (glob (image_dir self)) -> imread p 0%Z = None ->
  returned (create_image_list imread resize wild glob self) = None.
Proof.
  unfold create_image_list. induction (glob (image_dir self)) as [|x l IH];
    intros Hin Hread; [contradiction |].
  cbn [convert_all]. unfold convert_image.
  destruct (imread x 0%Z) as [img|] eqn:Ex; cbn [returned printed];
    [| reflexivity].
  destruct Hin as [-> | Hin]; [congruence |].
  rewrite (IH Hin Hread). reflexivity.
Qed.

Lemma create_image_list_unreadable_witness :
  returned
    (create_image_list read_sample rescale_only no_wild
       (fun dir => [String.EmptyString; dir])
       (new_features_lists (String.String Ascii.zero String.EmptyString)
          None)) = None.
Proof.
  apply (@create_image_list_unreadable read_sample rescale_only no_wild
           (fun dir => [String.EmptyString; dir])
           (new_features_lists (String.String Ascii.zero String.EmptyString)
              None)
           (String.String Ascii.zero String.EmptyString)).
  - right. now left.
  - reflexivity.
Defined.

(** * The methods over any arithmetic *)

(** ** The exact embedding is the generic one at the exact arithmetic *)

Lemma compute_chi_sum_at_exact (np_sqrt : float64 -> float64)
  (out : nat -> nat -> float64) (m : array2) :
  Generic.compute_chi_sum (exact_arithmetic np_sqrt) out m =
  compute_chi_sum out m.
Proof. reflexivity. Qed.

Lemma create_haralick_at_exact (np_sqrt : float64 -> float64) (m : array2) :
  Generic.create_haralick (exact_arithmetic np_sqrt) m =
  create_haralick np_sqrt m.
Proof. reflexivity. Qed.

Lemma transpose_at_exact (np_sqrt : float64 -> float64) (m : array2) :
  Generic.transpose (exact_arithmetic np_sqrt) m = transpose m.
Proof. reflexivity. Qed.

(** ** Arrays of any cells, given cell by cell *)

Lemma concat_as_list_prod (T X Y : Type) (a : X -> Y -> T) (l1 : list X)
  (l2 : list Y) :
  concat (map (fun i => map (a i) l2) l1) =
  map (fun c => a (fst c) (snd c)) (list_prod l1 l2).
Proof.
  induction l1 as [|x l1 IH]; cbn [map concat list_prod]; [reflexivity |].
  rewrite map_app, map_map, IH. reflexivity.
Qed.

Lemma ravel_tabulate_cells (T : Type) (n : nat) (a : nat -> nat -> T) :
  ravel (tabulate n n a) =
  map (fun c => a (fst c) (snd c)) (cells_in_order n).
Proof. apply concat_as_list_prod. Qed.

Lemma square_shape_tabulate (T : Type) (d : T) (n : nat)
  (m : list (list T)) :
  square_shape n m -> m = tabulate n n (fun i j => nth j (nth i m []) d).
Proof.
  intros [Hlen Hrows]. unfold tabulate.
  transitivity (map (fun i => nth i m []) (seq 0 (length m)));
    [apply list_as_map_seq |].
  rewrite Hlen. apply map_ext_in. intros i Hi. apply in_seq in Hi.
  rewrite Forall_forall in Hrows.
  assert (H : length (nth i m []) = n) by (apply Hrows, nth_In; lia).
  rewrite (list_as_map_seq d (nth i m [])) at 1. now rewrite H.
Qed.

Lemma map_arange (T : Type) (g : Z -> T) (n : nat) :
  map g (arange n) = map (fun i => g (Z.of_nat i)) (seq 0 n).
Proof. unfold arange. apply map_map. Qed.

Lemma filter_map_pairs (X K V : Type) (key : X -> K) (val : X -> V)
  (test : K -> bool) (l : list X) :
  map snd (filter (fun c => test (fst c)) (map (fun x => (key x, val x)) l)) =
  map val (filter (fun x => test (key x)) l).
Proof.
  induction l as [|x l IH]; cbn [map filter fst]; [reflexivity |].
  destruct (test (key x)); cbn [map snd]; now rewrite IH.
Qed.

Lemma combine_map (X K V : Type) (key : X -> K) (val : X -> V)
  (l : list X) :
  combine (map key l) (map val l) = map (fun x => (key x, val x)) l.
Proof.
  induction l as [|x l IH]; cbn [map combine]; [reflexivity |].
  now rewrite IH.
Qed.

Lemma sum_of_levels_eqb (i j t : nat) :
  Z.eqb (Z.of_nat i + Z.of_nat j) (Z.of_nat t) = Nat.eqb (i + j) t.
Proof.
  destruct (Z.eqb_spec (Z.of_nat i + Z.of_nat j) (Z.of_nat t)) as [E | E];
    destruct (Nat.eqb_spec (i + j) t) as [E' | E']; try reflexivity; lia.
Qed.

Section GenericArrays.

Variable A : arithmetic.
Variable n : nat.

Lemma generic_column_tabulate (a : nat -> nat -> number A) (j : nat) :
  j < n ->
  Generic.column A (tabulate n n a) j = map (fun i => a i j) (seq 0 n).
Proof.
  intros Hj. unfold Generic.column, tabulate. rewrite map_map.
  apply map_ext. intros i. now rewrite nth_map_seq.
Qed.

Lemma generic_sum_axis0_tabulate (a : nat -> nat -> number A) :
  Generic.sum_axis0 A (tabulate n n a) =
  map (fun j => fold_left (n_add A) (map (fun i => a i j) (seq 0 n))
                          (n_of_Z A 0))
      (seq 0 n).
Proof.
  unfold Generic.sum_axis0. rewrite shape1_tabulate_square.
  apply map_ext_in. intros j Hj. apply in_seq in Hj.
  now rewrite generic_column_tabulate by lia.
Qed.

Lemma generic_sum_axis1_tabulate (a : nat -> nat -> number A) :
  Generic.sum_axis1 A (tabulate n n a) =
  map (fun i => n_sum A (map (fun j => a i j) (seq 0 n))) (seq 0 n).
Proof. unfold Generic.sum_axis1, tabulate. now rewrite map_map. Qed.

Lemma generic_sum_axes01_tabulate (a : nat -> nat -> number A) :
  Generic.sum_axes01 A (tabulate n n a) = total_over A n a.
Proof.
  unfold Generic.sum_axes01, total_over.
  now rewrite generic_sum_axis0_tabulate.
Qed.

Lemma generic_msum_tabulate (a : nat -> nat -> number A) :
  Generic.msum A (tabulate n n a) =
  n_sum A (map (fun c => a (fst c) (snd c)) (cells_in_order n)).
Proof. unfold Generic.msum. now rewrite ravel_tabulate_cells. Qed.

Lemma generic_masked_sum_tabulate (key : nat -> nat -> Z)
  (a : nat -> nat -> number A) (k : Z) :
  Generic.masked_sum A (ravel (tabulate n n key)) (ravel (tabulate n n a)) k =
  n_sum A
    (map (fun c => a (fst c) (snd c))
         (filter (fun c => Z.eqb (key (fst c) (snd c)) k)
                 (cells_in_order n))).
Proof.
  unfold Generic.masked_sum. rewrite !ravel_tabulate_cells, combine_map.
  now rewrite (filter_map_pairs (fun c => key (fst c) (snd c))
                 (fun c => a (fst c) (snd c)) (fun z => Z.eqb z k)).
Qed.

End GenericArrays.

(** ** The descriptors, cell by cell *)

Section Descriptors.

Variable A : arithmetic.
Variable n : nat.
Variable m : list (list (number A)).

Local Abbreviation a := (Generic.get A m).
Local Abbreviation tab := (tabulate n n (Generic.get A m)).

Lemma level_tab : Generic.level A tab = n.
Proof. apply shape0_tabulate. Qed.

Lemma length_tab : length tab = n.
Proof. apply shape0_tabulate. Qed.

Lemma homo_tab : Generic.homo A tab = homogeneity_in_words A n m.
Proof.
  unfold Generic.homo, Generic.homo_weight, Generic.I_minus_J.
  rewrite level_tab, mmap_tabulate, mmap2_tabulate.
  apply generic_sum_axes01_tabulate.
Qed.

Lemma asm_tab : Generic.asm A tab = asm_in_words A n m.
Proof.
  unfold Generic.asm. rewrite mmap_tabulate.
  apply generic_sum_axes01_tabulate.
Qed.

Lemma contrast_tab : Generic.contrast A tab = contrast_in_words A n m.
Proof.
  unfold Generic.contrast, Generic.con_weight, Generic.I_minus_J.
  rewrite level_tab, mmap_tabulate, mmap2_tabulate.
  apply generic_sum_axes01_tabulate.
Qed.

Lemma energy_tab : Generic.energy A tab = energy_in_words A n m.
Proof. unfold Generic.energy, energy_in_words. now rewrite asm_tab. Qed.

Lemma msum_tab : Generic.msum A tab = grand_total A n m.
Proof. apply generic_msum_tabulate. Qed.

Lemma p_tab : Generic.p A tab = tabulate n n (probability A n m).
Proof. unfold Generic.p. now rewrite msum_tab, mmap_tabulate. Qed.

Lemma px_tab : Generic.px A tab = map (marginal_y A n m) (seq 0 n).
Proof.
  unfold Generic.px. rewrite p_tab. apply generic_sum_axis0_tabulate.
Qed.

Lemma py_tab : Generic.py A tab = map (marginal_x A n m) (seq 0 n).
Proof.
  unfold Generic.py. rewrite p_tab. apply generic_sum_axis1_tabulate.
Qed.

Lemma k_tab : map (n_of_Z A) (Generic.k A tab) = grey_levels A n.
Proof. unfold Generic.k. rewrite length_tab. apply map_arange. Qed.

Lemma k_squared_tab :
  map (fun z => n_of_Z A (z ^ 2)) (Generic.k A tab) =
  squared_grey_levels A n.
Proof.
  unfold Generic.k. rewrite length_tab.
  apply (map_arange (fun z => n_of_Z A (z ^ 2))).
Qed.

Lemma ux_tab : Generic.ux A tab = mean_y A n m.
Proof. unfold Generic.ux. now rewrite px_tab, k_tab. Qed.

Lemma uy_tab : Generic.uy A tab = mean_x A n m.
Proof. unfold Generic.uy. now rewrite py_tab, k_tab. Qed.

Lemma vx_tab : Generic.vx A tab = variance_y A n m.
Proof. unfold Generic.vx. now rewrite px_tab, k_squared_tab, ux_tab. Qed.

Lemma vy_tab : Generic.vy A tab = variance_x A n m.
Proof. unfold Generic.vy. now rewrite py_tab, k_squared_tab, uy_tab. Qed.

Lemma sx_tab : Generic.sx A tab = deviation_y A n m.
Proof. unfold Generic.sx. now rewrite vx_tab. Qed.

Lemma sy_tab : Generic.sy A tab = deviation_x A n m.
Proof. unfold Generic.sy. now rewrite vy_tab. Qed.

Lemma corr_tab : Generic.corr A tab = correlation_in_words A n m.
Proof.
  unfold Generic.corr, correlation_in_words.
  rewrite sx_tab, sy_tab, ux_tab, uy_tab.
  unfold Generic.pravel, Generic.ij, Generic.I_times_J.
  rewrite p_tab, level_tab, !ravel_tabulate_cells, map_map.
  reflexivity.
Qed.

Lemma px_plus_y_tab :
  Generic.px_plus_y A tab = map (p_plus A n m) (seq 0 (2 * n)).
Proof.
  unfold Generic.px_plus_y, Generic.idx1, Generic.I_plus_J.
  rewrite level_tab, map_arange, (Nat.mul_comm n 2).
  apply map_ext. intros t.
  rewrite generic_masked_sum_tabulate. unfold p_plus. do 2 f_equal.
  apply filter_ext. intros c. apply sum_of_levels_eqb.
Qed.

Lemma tk_tab :
  map (n_of_Z A) (Generic.tk A tab) =
  map (fun t => n_of_Z A (Z.of_nat t)) (seq 0 (2 * n)).
Proof. unfold Generic.tk. rewrite length_tab. apply map_arange. Qed.

Lemma tk_squared_tab :
  map (fun z => n_of_Z A (z ^ 2)) (Generic.tk A tab) =
  map (fun t => n_of_Z A (Z.of_nat t ^ 2)) (seq 0 (2 * n)).
Proof.
  unfold Generic.tk. rewrite length_tab.
  apply (map_arange (fun z => n_of_Z A (z ^ 2))).
Qed.

Lemma mean_tab : Generic.mean A tab = mean_in_words A n m.
Proof. unfold Generic.mean. now rewrite tk_tab, px_plus_y_tab. Qed.

Lemma stdev_tab : Generic.stdev A tab = stdev_in_words A n m.
Proof.
  unfold Generic.stdev. now rewrite tk_squared_tab, px_plus_y_tab, mean_tab.
Qed.

Lemma centred_tab : Generic.centred A tab = tabulate n n (centred_level A n m).
Proof.
  unfold Generic.centred, Generic.I_plus_J.
  now rewrite level_tab, mmap_tabulate, ux_tab, uy_tab.
Qed.

Lemma cls_shade_tab : Generic.cls_shade A tab = cluster_shade_in_words A n m.
Proof.
  unfold Generic.cls_shade, Generic.shade_weight.
  rewrite centred_tab, mmap_tabulate, mmap2_tabulate.
  apply generic_sum_axes01_tabulate.
Qed.

Lemma cls_prom_tab : Generic.cls_prom A tab = cluster_prominence_in_words A n m.
Proof.
  unfold Generic.cls_prom, Generic.prom_weight.
  rewrite centred_tab, mmap_tabulate, mmap2_tabulate.
  apply generic_sum_axes01_tabulate.
Qed.

End Descriptors.

(** C6: for a square matrix of [n] grey levels, and whatever the
    arithmetic (the exact one and binary64 among them), the result of
    [create_haralick] has 9 entries, which are, in this order, the
    homogeneity, the angular second moment, the contrast, the energy, the
    correlation, the mean, the standard deviation, the cluster shade and
    the cluster prominence of section 4.3 of the specification, each
    computed cell by cell from the matrix. *)
Theorem create_haralick_entries (A : arithmetic) (n : nat)
  (m : list (list (number A))) :
  square_shape n m ->
  length (Generic.create_haralick A m) = 9 /\
  Generic.create_haralick A m =
    [homogeneity_in_words A n m; asm_in_words A n m;
     contrast_in_words A n m; energy_in_words A n m; correlation_in_words A n m;
     mean_in_words A n m; stdev_in_words A n m; cluster_shade_in_words A n m;
     cluster_prominence_in_words A n m].
Proof.
  intros Hsq. split; [reflexivity |].
  pose proof (square_shape_tabulate (n_nan A) Hsq) as E.
  change (m = tabulate n n (Generic.get A m)) in E.
  transitivity (Generic.create_haralick A (tabulate n n (Generic.get A m)));
    [now rewrite <- E |].
  unfold Generic.create_haralick.
  now rewrite homo_tab, asm_tab, contrast_tab, energy_tab, corr_tab,
    mean_tab, stdev_tab, cls_shade_tab, cls_prom_tab.
Qed.

Lemma create_haralick_entries_witness :
  Generic.create_haralick (ieee repeated_product) tenths =
  haralick_in_words (ieee repeated_product) 2 tenths.
Proof.
  apply (@create_haralick_entries (ieee repeated_product) 2 tenths).
  split; [reflexivity | repeat constructor].
Defined.

(** ** The score, cell by cell *)

Lemma repeat_rows_any (T : Type) (n : nat) (f : nat -> T) :
  reshape (np_repeat (map f (seq 0 n)) n) n n = tabulate n n (fun i _ => f i).
Proof.
  pose proof (reshape_repeat n (map f (seq 0 n))) as H.
  rewrite length_map, length_seq in H. rewrite H, map_map.
  unfold tabulate. apply map_ext. intros i.
  now rewrite map_constant, length_seq.
Qed.

Lemma generic_transpose_tabulate (A : arithmetic) (n : nat)
  (a : nat -> nat -> number A) :
  Generic.transpose A (tabulate n n a) = tabulate n n (fun i j => a j i).
Proof.
  unfold Generic.transpose. rewrite shape1_tabulate_square.
  unfold tabulate at 2. apply map_ext_in. intros j Hj. apply in_seq in Hj.
  now rewrite generic_column_tabulate by lia.
Qed.

Lemma compute_chi_sum_tabulate (A : arithmetic) (n : nat)
  (m : list (list (number A))) (out : nat -> nat -> number A) :
  Generic.compute_chi_sum A out (tabulate n n (Generic.get A m)) =
  chi_sum_cell_by_cell A n m out.
Proof.
  unfold Generic.compute_chi_sum.
  rewrite shape0_tabulate, shape1_tabulate_square.
  rewrite generic_sum_axis0_tabulate, generic_sum_axis1_tabulate.
  rewrite generic_msum_tabulate.
  rewrite !repeat_rows_any, generic_transpose_tabulate.
  unfold Generic.np_divide_where.
  rewrite !mmap2_tabulate, !mmap_tabulate, !mmap2_tabulate.
  rewrite !mmap_tabulate, !mmap2_tabulate.
  rewrite shape0_tabulate, shape1_tabulate_square, !mmap2_tabulate.
  rewrite generic_msum_tabulate. reflexivity.
Qed.

(** Whatever the arithmetic (the exact one and binary64 among them), the
    score of a square matrix is the sum, over the cells in row-major order,
    of [(m[i,j] - e)^2 / e] where the expectation [e] of the cell, the total
    of column [i] times the total of row [j] over the total of the matrix,
    is not zero, and of what the allocation of [np.divide] held where it is
    zero. *)
Theorem compute_chi_sum_cell_by_cell (A : arithmetic) (n : nat)
  (m : list (list (number A))) (out : nat -> nat -> number A) :
  square_shape n m ->
  Generic.compute_chi_sum A out m = chi_sum_cell_by_cell A n m out.
Proof.
  intros Hsq.
  pose proof (square_shape_tabulate (n_nan A) Hsq) as E.
  change (m = tabulate n n (Generic.get A m)) in E.
  transitivity (Generic.compute_chi_sum A out
                  (tabulate n n (Generic.get A m)));
    [now rewrite <- E | apply compute_chi_sum_tabulate].
Qed.

Lemma compute_chi_sum_cell_by_cell_witness :
  Generic.compute_chi_sum (ieee repeated_product) (fun _ _ => S754_nan)
    counts =
  chi_sum_cell_by_cell (ieee repeated_product) 2 counts
    (fun _ _ => S754_nan).
Proof.
  apply (@compute_chi_sum_cell_by_cell (ieee repeated_product) 2 counts).
  split; [reflexivity | repeat constructor].
Defined.

(** ** The descriptors in binary64 *)

(** C7 fails in binary64.  In the matrix [last_row_only] (the tallies 3, 6,
    1 over their total 10, as a normalised co-occurrence matrix holds them)
    every cell outside the last row is zero, so the first grey level of a
    pair is always 2 and one marginal is constant.  The source finds 1 +
    2^-52 for the total of the last row of [matrix / matrix.sum()], hence
    the variance 4 (1 + 2^-52) - (2 (1 + 2^-52))^2, rounded to -2^-50; its
    square root is [nan], the test [sx == 0.0 or sy == 0.0] is false, and
    the correlation is [nan], whatever the platform's power function.  Over
    the exact arithmetic the same matrix has the variance 0 and the
    correlation 1. *)
Theorem create_haralick_constant_marginal_nan
  (np_power : binary64 -> nat -> binary64) :
  square_shape 3 last_row_only /\
  (forall i j, i < 2 -> j < 3 ->
     Generic.get (ieee np_power) last_row_only i j = b64_zero) /\
  Generic.sum_axis1 (ieee np_power) (Generic.p (ieee np_power) last_row_only) =
    [b64_zero; b64_zero; S754_finite false 4503599627370497 (-52)] /\
  Generic.vy (ieee np_power) last_row_only =
    S754_finite true 4503599627370496 (-102) /\
  b64_is_zero (Generic.sx (ieee np_power) last_row_only) = false /\
  Generic.sy (ieee np_power) last_row_only = S754_nan /\
  nth 4 (Generic.create_haralick (ieee np_power) last_row_only) b64_zero =
    S754_nan /\
  vy last_row_only_exact = fzero /\
  nth 4 (create_haralick sqrt_down last_row_only_exact) NaN = fone.
Proof.
  split; [split; [reflexivity | repeat constructor] |].
  split.
  { intros i j Hi Hj.
    destruct i as [|[|i]]; [| | lia];
      (destruct j as [|[|[|j]]]; [| | | lia]); reflexivity. }
  repeat split; try (vm_compute; reflexivity); by_evaluation.
Qed.

(** C9 fails in binary64.  For the matrix [tenths] ([[0.1, 0.2], [0.3,
    0.4]], of total 1.0) the angular second moment is
    0.30000000000000004, and that of its transpose is 0.3: the squares are
    the same four numbers, added column by column, and the columns of the
    transpose are the rows of the matrix. *)
Lemma create_haralick_transpose_rounds :
  square_shape 2 tenths /\
  forall np_power : binary64 -> nat -> binary64,
    Generic.msum (ieee np_power) tenths = b64_of_Z 1 /\
    nth 1 (Generic.create_haralick (ieee np_power) tenths) S754_nan =
      S754_finite false 5404319552844596 (-54) /\
    nth 1 (Generic.create_haralick (ieee np_power)
             (Generic.transpose (ieee np_power) tenths)) S754_nan =
      S754_finite false 5404319552844595 (-54).
Proof.
  split; [split; [reflexivity | repeat constructor] |].
  intros np_power. repeat split; vm_compute; reflexivity.
Qed.

(** C9 as amended: over the exact arithmetic, the descriptors of the
    transpose of a square matrix are the descriptors of the matrix, all 9
    of them. *)
Theorem create_haralick_transpose_exact (np_sqrt : float64 -> float64)
  (n : nat) (m : array2) :
  square n m ->
  Generic.create_haralick (exact_arithmetic np_sqrt)
    (Generic.transpose (exact_arithmetic np_sqrt) m) =
  Generic.create_haralick (exact_arithmetic np_sqrt) m.
Proof.
  intros Hsq. rewrite transpose_at_exact, !create_haralick_at_exact.
  exact (create_haralick_transpose np_sqrt Hsq).
Qed.

Lemma create_haralick_transpose_exact_witness :
  Generic.create_haralick (exact_arithmetic sqrt_down)
    (Generic.transpose (exact_arithmetic sqrt_down) M1234) =
  Generic.create_haralick (exact_arithmetic sqrt_down) M1234.
Proof.
  apply (@create_haralick_transpose_exact sqrt_down 2 M1234).
  split; [reflexivity | repeat constructor].
Defined.

(** ** The score in binary64 *)




(** ** The offsets and the best known pair *)

